(** * PriorityQueue.js: a reference-tracking priority queue

    A shallow embedding of [src/PriorityQueue.js] and the properties its
    description states about it.

    Modelling choices.
    - An entry object [{element, priority}] created by [add] is a cell of the
      JavaScript memory; its identity (what [===] and [Set] compare) is the
      index of the cell in [objects].  A reference handed in by a caller that
      no [add] has created is an index outside [objects].
    - [heapArr], [references] and [deletedElements] hold identities, so a
      write to [item.priority] is seen through every one of them.
    - Finite numbers are represented by the integers among them: the code
      compares priorities and uses them as property keys, and a position is
      used as an array index.  Priorities and positions in the statements
      below are whole numbers; the positions the code itself computes
      ([positionOf], [forEach]) always are.
    - A method returns a completion (normal value or thrown error) together
      with the state it leaves behind, which matters when it throws half-way.
    - The two [while] loops run on fuel; [Stuck] is the completion of a loop
      that ran out of it, and [never_stuck] shows that no method produces it.
    - A function handed to [forEach] is given by what it does to the queue
      when it is called; it may call the queue's methods and may throw. *)

From stdpp Require Import gmap list sorting strings.
From Stdlib Require Import ZArith Lia.

Local Open Scope Z_scope.

(** ** Values, errors, completions *)

Inductive jsval :=
| JUndefined
| JNull
| JBool (b : bool)
| JNum (z : Z)
| JNaN
| JInfinity (negative : bool)
| JStr (s : string)
| JFun (name : string).

Inductive error := TypeError | RangeError | ReferenceError.

Inductive completion (A : Type) :=
| Normal (a : A)
| Throw (e : error)
| Stuck.
Arguments Normal {A} a.
Arguments Throw {A} e.
Arguments Stuck {A}.

(** Identity of an entry object. *)
Definition ref := nat.

(** The object [{element, priority}] built by [add]. *)
Record Item := { element : jsval; priority : Z }.

(** A value stored in [prioritiesObj]: a number, or the [NaN] that
    [undefined--] leaves behind. *)
Inductive count := Count (n : Z) | NaN.

Record PriorityQueue := {
  heapArr : list ref;
  counterDequeuedElements : Z;
  prioritiesObj : gmap Z count;
  references : gset ref;
  deletedElements : gset ref;
  objects : list Item
}.

(** [constructor()] *)
Definition new_queue : PriorityQueue :=
  {| heapArr := []; counterDequeuedElements := 0; prioritiesObj := ∅;
     references := ∅; deletedElements := ∅; objects := [] |}.

Definition set_heapArr (a : list ref) (s : PriorityQueue) : PriorityQueue :=
  {| heapArr := a; counterDequeuedElements := counterDequeuedElements s;
     prioritiesObj := prioritiesObj s; references := references s;
     deletedElements := deletedElements s; objects := objects s |}.

Definition set_counter (c : Z) (s : PriorityQueue) : PriorityQueue :=
  {| heapArr := heapArr s; counterDequeuedElements := c;
     prioritiesObj := prioritiesObj s; references := references s;
     deletedElements := deletedElements s; objects := objects s |}.

Definition set_prioritiesObj (m : gmap Z count) (s : PriorityQueue) : PriorityQueue :=
  {| heapArr := heapArr s; counterDequeuedElements := counterDequeuedElements s;
     prioritiesObj := m; references := references s;
     deletedElements := deletedElements s; objects := objects s |}.

Definition set_references (r : gset ref) (s : PriorityQueue) : PriorityQueue :=
  {| heapArr := heapArr s; counterDequeuedElements := counterDequeuedElements s;
     prioritiesObj := prioritiesObj s; references := r;
     deletedElements := deletedElements s; objects := objects s |}.

Definition set_deletedElements (d : gset ref) (s : PriorityQueue) : PriorityQueue :=
  {| heapArr := heapArr s; counterDequeuedElements := counterDequeuedElements s;
     prioritiesObj := prioritiesObj s; references := references s;
     deletedElements := d; objects := objects s |}.

Definition set_objects (o : list Item) (s : PriorityQueue) : PriorityQueue :=
  {| heapArr := heapArr s; counterDequeuedElements := counterDequeuedElements s;
     prioritiesObj := prioritiesObj s; references := references s;
     deletedElements := deletedElements s; objects := o |}.

(** ** Memory and array access *)

Definition undefined_item : Item := {| element := JUndefined; priority := 0 |}.

(** The object behind an identity.  Every identity the queue stores is
    allocated ([reachable_allocated]), so the default is never read there. *)
Definition item_of (mem : list Item) (r : ref) : Item :=
  default undefined_item (mem !! r).

Definition prio (mem : list Item) (r : ref) : Z := priority (item_of mem r).

(** [item.priority = p] *)
Definition write_priority (mem : list Item) (r : ref) (p : Z) : list Item :=
  <[r := {| element := element (item_of mem r); priority := p |}]> mem.

(** [arr[i]]: [None] is the [undefined] read outside the array. *)
Definition get (arr : list ref) (i : Z) : option ref :=
  if decide (0 ≤ i) then arr !! Z.to_nat i else None.

(** [arr[i] = v] for a slot inside the array.  The loops below only write
    slots they have just read an entry from; a write elsewhere, which would
    leave a hole or a non-index property, is left out. *)
Definition put (arr : list ref) (i : Z) (v : ref) : list ref :=
  if decide (0 ≤ i) then <[Z.to_nat i := v]> arr else arr.

(** ** The state-and-completion monad of the methods *)

Definition M (A : Type) : Type := PriorityQueue → completion A * PriorityQueue.

Definition ret {A} (a : A) : M A := λ s, (Normal a, s).
Definition throw {A} (e : error) : M A := λ s, (Throw e, s).

Definition bind {A B} (m : M A) (k : A → M B) : M B :=
  λ s, match m s with
       | (Normal a, s') => k a s'
       | (Throw e, s') => (Throw e, s')
       | (Stuck, s') => (Stuck, s')
       end.

Definition gets {A} (f : PriorityQueue → A) : M A := λ s, (Normal (f s), s).
Definition modify (f : PriorityQueue → PriorityQueue) : M unit :=
  λ s, (Normal tt, f s).

Notation "x <- m ;; k" := (bind m (λ x, k))
  (at level 100, m at next level, right associativity).
Notation "m ;;; k" := (bind m (λ _, k))
  (at level 100, right associativity).

(** ** Private helpers of the class *)

(** [isNumber(num)]: throws unless [num] is a finite number; the number is
    handed on for the code that follows the check. *)
Definition isNumber (num : jsval) : M Z :=
  match num with
  | JNum z => ret z
  | _ => throw TypeError
  end.

(** [increasePriority(priority)] *)
Definition increasePriority (p : Z) : M unit :=
  modify (λ s,
    let m := prioritiesObj s in
    match m !! p with
    | Some (Count n) =>
        if decide (n = 0) then set_prioritiesObj (<[p := Count 1]> m) s
        else set_prioritiesObj (<[p := Count (n + 1)]> m) s
    | Some NaN | None => set_prioritiesObj (<[p := Count 1]> m) s
    end).

(** [decreasePriority(priority)] *)
Definition decreasePriority (p : Z) : M unit :=
  modify (λ s,
    let m := prioritiesObj s in
    match m !! p with
    | Some (Count n) =>
        if decide (n = 1) then set_prioritiesObj (delete p m) s
        else set_prioritiesObj (<[p := Count (n - 1)]> m) s
    | Some NaN | None => set_prioritiesObj (<[p := NaN]> m) s
    end).

(** The scan of [getIndexByReference], started at index [i]. *)
Fixpoint scan (arr : list ref) (elementRef : ref) (i : Z) : option Z :=
  match arr with
  | [] => None
  | x :: rest => if decide (x = elementRef) then Some i
                 else scan rest elementRef (i + 1)
  end.

(** [getIndexByReference(elementRef)] *)
Definition getIndexByReference (elementRef : ref) : M Z :=
  λ s, match scan (heapArr s) elementRef 0 with
       | Some i => (Normal i, s)
       | None => (Throw ReferenceError, s)
       end.

(** [this.heapArr.findIndex(item => item === elementRef)] *)
Definition findIndex (arr : list ref) (elementRef : ref) : Z :=
  default (-1) (scan arr elementRef 0).

(** [getValueByReference(elementRef)]: the member of [references] identical
    to [elementRef], or [null]. *)
Definition getValueByReference (elementRef : ref) : M (option ref) :=
  gets (λ s, if decide (elementRef ∈ references s) then Some elementRef else None).

(** The loop of [bubbleUp].  [newElement] is [heapArr[index]] as read before
    the loop; reading [.priority] of [undefined] throws. *)
Fixpoint bubbleUp_loop (fuel : nat) (mem : list Item) (newElement : option ref)
    (arr : list ref) (index : Z) : completion unit * list ref :=
  match fuel with
  | O => (Stuck, arr)
  | S fuel' =>
      if decide (index = 0) then (Normal tt, arr)
      else
        let parentIndex := (index - 1) `div` 2 in
        match get arr parentIndex, newElement with
        | None, _ => (Throw TypeError, arr)
        | Some _, None => (Throw TypeError, arr)
        | Some parentElem, Some ne =>
            if decide (prio mem ne ≤ prio mem parentElem) then (Normal tt, arr)
            else bubbleUp_loop fuel' mem newElement
                   (put (put arr parentIndex ne) index parentElem) parentIndex
        end
  end.

(** [bubbleUp(index)] *)
Definition bubbleUp (index : Z) : M unit :=
  λ s, let '(c, arr) :=
         bubbleUp_loop (S (Z.to_nat index)) (objects s)
           (get (heapArr s) index) (heapArr s) index in
       (c, set_heapArr arr s).

(** One comparison of [bubbleDown]:
    [child < length && heapArr[child].priority > heapArr[our].priority]. *)
Definition exceeds (mem : list Item) (arr : list ref) (child our : Z)
    : completion bool :=
  if decide (child < Z.of_nat (length arr)) then
    match get arr child, get arr our with
    | Some c, Some o => Normal (bool_decide (prio mem o < prio mem c))
    | _, _ => Throw TypeError
    end
  else Normal false.

(** The loop of [bubbleDown]; [actualElement] is [heapArr[index]] as read
    before the loop. *)
Fixpoint bubbleDown_loop (fuel : nat) (mem : list Item) (actualElement : option ref)
    (arr : list ref) (index : Z) : completion unit * list ref :=
  match fuel with
  | O => (Stuck, arr)
  | S fuel' =>
      let leftChildIndex := 2 * index + 1 in
      let rightChildIndex := 2 * index + 2 in
      match exceeds mem arr leftChildIndex index with
      | Normal bl =>
          let our1 := if bl then leftChildIndex else index in
          match exceeds mem arr rightChildIndex our1 with
          | Normal br =>
              let ourPriorityIndex := if br then rightChildIndex else our1 in
              if decide (ourPriorityIndex = index) then (Normal tt, arr)
              else
                match get arr ourPriorityIndex, actualElement with
                | Some child, Some actual =>
                    bubbleDown_loop fuel' mem actualElement
                      (put (put arr index child) ourPriorityIndex actual)
                      ourPriorityIndex
                | _, _ => (Stuck, arr)
                end
          | Throw e => (Throw e, arr)
          | Stuck => (Stuck, arr)
          end
      | Throw e => (Throw e, arr)
      | Stuck => (Stuck, arr)
      end
  end.

(** [bubbleDown(index)] *)
Definition bubbleDown (index : Z) : M unit :=
  λ s, let '(c, arr) :=
         bubbleDown_loop (S (length (heapArr s))) (objects s)
           (get (heapArr s) index) (heapArr s) index in
       (c, set_heapArr arr s).

(** ** Public methods *)

(** [add(element, priority)] *)
Definition add (element0 priority0 : jsval) : M ref :=
  p <- isNumber priority0 ;;
  newItem <- gets (λ s, length (objects s)) ;;
  modify (λ s, set_objects (objects s ++ [{| element := element0; priority := p |}]) s) ;;;
  modify (λ s, set_heapArr (heapArr s ++ [newItem]) s) ;;;
  len <- gets (λ s, Z.of_nat (length (heapArr s))) ;;
  bubbleUp (len - 1) ;;;
  increasePriority p ;;;
  modify (λ s, set_counter (counterDequeuedElements s + 1) s) ;;;
  modify (λ s, set_references ({[newItem]} ∪ references s) s) ;;;
  ret newItem.

(** [get front] *)
Definition front (s : PriorityQueue) : jsval :=
  match heapArr s with
  | [] => JNull
  | root :: _ => element (item_of (objects s) root)
  end.

(** [this.heapArr[0] = this.heapArr.pop()] on a non-empty array: slot 0 is
    fixed as the target, [pop] drops the last entry, and the popped entry is
    stored at slot 0, which re-creates the slot when [pop] emptied the array. *)
Definition pop_into_root (arr : list ref) : list ref :=
  match last arr with
  | None => arr
  | Some popped =>
      match removelast arr with
      | [] => [popped]
      | _ :: rest => popped :: rest
      end
  end.

(** [next()] *)
Definition next : M jsval :=
  λ s, match heapArr s with
       | [] => (Normal JNull, s)
       | root :: _ =>
           (modify (λ s, set_heapArr (pop_into_root (heapArr s)) s) ;;;
            len <- gets (λ s, length (heapArr s)) ;;
            (if decide (len = 0%nat) then ret tt else bubbleDown 0) ;;;
            rootItem <- gets (λ s, item_of (objects s) root) ;;
            decreasePriority (priority rootItem) ;;;
            modify (λ s, set_references (references s ∖ {[root]}) s) ;;;
            modify (λ s, set_deletedElements ({[root]} ∪ deletedElements s) s) ;;;
            ret (element rootItem)) s
       end.

(** [get length] *)
Definition length_ (s : PriorityQueue) : Z := Z.of_nat (length (heapArr s)).

(** [get totalProcessed] *)
Definition totalProcessed (s : PriorityQueue) : Z := counterDequeuedElements s.

(** [at(position)]: [None] is the [null] result, [Some (ref, value)] the
    object [{ref, value}]. *)
Definition at_ (position : jsval) : M (option (ref * jsval)) :=
  pos <- isNumber position ;;
  if decide (pos ≤ 0) then throw RangeError
  else
    len <- gets (λ s, Z.of_nat (length (heapArr s))) ;;
    if decide (len < pos) then ret None
    else
      λ s, match get (heapArr s) (pos - 1) with
           | Some r => (Normal (Some (r, element (item_of (objects s) r))), s)
           | None => (Throw TypeError, s)
           end.

(** [positionOf(elementRef)] *)
Definition positionOf (elementRef : ref) : M Z :=
  i <- getIndexByReference elementRef ;;
  ret (i + 1).

(** [changePriority(elementRef, newPriority)] *)
Definition changePriority (elementRef : ref) (newPriority0 : jsval) : M Z :=
  newPriority <- isNumber newPriority0 ;;
  has <- gets (λ s, bool_decide (elementRef ∈ references s)) ;;
  if negb has then throw ReferenceError
  else
    found <- getValueByReference elementRef ;;
    match found with
    | None => throw TypeError
    | Some item =>
        oldPriority <- gets (λ s, prio (objects s) item) ;;
        decreasePriority oldPriority ;;;
        modify (λ s, set_objects (write_priority (objects s) item newPriority) s) ;;;
        increasePriority newPriority ;;;
        index <- gets (λ s, findIndex (heapArr s) elementRef) ;;
        (if decide (newPriority < oldPriority) then bubbleDown index
         else if decide (oldPriority < newPriority) then bubbleUp index
         else ret tt) ;;;
        has' <- gets (λ s, bool_decide (elementRef ∈ references s)) ;;
        if has' then (i <- gets (λ s, findIndex (heapArr s) elementRef) ;; ret (i + 1))
        else ret (-1)
    end.

(** [removeByRef(elementRef)] *)
Definition removeByRef (elementRef : ref) : M bool :=
  deleted <- gets (λ s, bool_decide (elementRef ∈ deletedElements s)) ;;
  if deleted then ret false
  else
    index <- getIndexByReference elementRef ;;
    spliced <- gets (λ s, get (heapArr s) index) ;;
    match spliced with
    | None => throw TypeError
    | Some item =>
        modify (λ s, set_heapArr (delete (Z.to_nat index) (heapArr s)) s) ;;;
        p <- gets (λ s, prio (objects s) item) ;;
        decreasePriority p ;;;
        modify (λ s, set_deletedElements ({[item]} ∪ deletedElements s) s) ;;;
        ret true
    end.

(** [removeByPosition(position)] *)
Definition removeByPosition (position : jsval) : M bool :=
  pos <- isNumber position ;;
  if decide (pos ≤ 0) then throw RangeError
  else
    len <- gets (λ s, Z.of_nat (length (heapArr s))) ;;
    if decide (len < pos) then ret false
    else
      itemToRemove <- gets (λ s, get (heapArr s) (pos - 1)) ;;
      match itemToRemove with
      | None => throw ReferenceError
      | Some item => removeByRef item ;;; ret true
      end.

(** [clear()] *)
Definition clear : M unit :=
  modify (λ s, set_heapArr [] s) ;;;
  modify (λ s, set_references ∅ s) ;;;
  modify (λ s, set_prioritiesObj ∅ s) ;;;
  modify (λ s, set_deletedElements ∅ s).

(** [sortedPriorityArr.sort((a, b) => b.priority - a.priority)]: the stable
    sort of the platform, by descending priority. *)
Fixpoint insert_desc (mem : list Item) (x : ref) (l : list ref) : list ref :=
  match l with
  | [] => [x]
  | y :: rest => if decide (prio mem y ≤ prio mem x) then x :: y :: rest
                 else y :: insert_desc mem x rest
  end.

Definition sort_desc (mem : list Item) (l : list ref) : list ref :=
  foldr (insert_desc mem) [] l.

(** What a function passed to [forEach] does when it is called with a
    position and an element, as far as the queue is concerned: it may call
    methods of the queue, and it returns or throws. *)
Definition callback : Type := Z → jsval → M unit.

(** A function that leaves the queue alone and returns. *)
Definition observer : callback := λ _ _, ret tt.

(** The [for] loop of [forEach]: for each entry of the sorted copy,
    [positionOf] is called on the queue as it is by then, the element is
    read, and the function is called on the two.  The list of the argument
    pairs of the calls made, in call order, is kept as the result. *)
Fixpoint forEach_loop (body : callback) (l : list ref) : M (list (Z * jsval)) :=
  match l with
  | [] => ret []
  | x :: rest =>
      pos <- positionOf x ;;
      el <- gets (λ s, element (item_of (objects s) x)) ;;
      body pos el ;;;
      calls <- forEach_loop body rest ;;
      ret ((pos, el) :: calls)
  end.

(** [typeof callbackfn === 'function'] *)
Definition callable (v : jsval) : bool :=
  match v with JFun _ => true | _ => false end.

(** [forEach(callbackfn, thisArg)]; [body] is what [callbackfn] does when
    it is a function and is called.  Where the source returns [undefined],
    the calls that were made are returned. *)
Definition forEach (callbackfn : jsval) (body : callback) : M (list (Z * jsval)) :=
  if negb (callable callbackfn) then throw TypeError
  else
    sortedPriorityArr <- gets (λ s, sort_desc (objects s) (heapArr s)) ;;
    forEach_loop body sortedPriorityArr.

(** [get stats] *)
Definition stats (s : PriorityQueue) : gmap Z count := prioritiesObj s.

(** ** Calls and histories *)

Inductive call :=
| Add (element0 priority0 : jsval)
| Front
| Next
| Length
| TotalProcessed
| At (position : jsval)
| PositionOf (elementRef : ref)
| ChangePriority (elementRef : ref) (newPriority : jsval)
| RemoveByRef (elementRef : ref)
| RemoveByPosition (position : jsval)
| Clear
| ForEach (callbackfn : jsval)
| Stats.

(** The state a call leaves behind, whether it returns or throws.  Between
    two calls of its function [forEach] only reads the queue, so the calls a
    function makes on the queue act as calls made one after the other; a
    history lists them as calls of their own, and its [ForEach] is a
    traversal by a function that leaves the queue alone. *)
Definition run (c : call) (s : PriorityQueue) : PriorityQueue :=
  match c with
  | Add e p => (add e p s).2
  | Next => (next s).2
  | At p => (at_ p s).2
  | PositionOf r => (positionOf r s).2
  | ChangePriority r p => (changePriority r p s).2
  | RemoveByRef r => (removeByRef r s).2
  | RemoveByPosition p => (removeByPosition p s).2
  | Clear => (clear s).2
  | ForEach f => (forEach f observer s).2
  | Front | Length | TotalProcessed | Stats => s
  end.

Definition run_all (cs : list call) (s : PriorityQueue) : PriorityQueue :=
  foldl (λ st c, run c st) s cs.

(** A state some history of calls leads to from a new queue. *)
Definition reachable (s : PriorityQueue) : Prop :=
  ∃ cs, run_all cs new_queue = s.

(** ** Properties of states *)

(** [j] is a child slot of [i] in the array layout of the heap. *)
Definition child_of (i j : Z) : Prop := j = 2 * i + 1 ∨ j = 2 * i + 2.

(** Max-heap ordering of an array of entries: no child outranks its parent. *)
Definition heap_ordered_on (mem : list Item) (arr : list ref) : Prop :=
  ∀ i j x y, child_of i j → get arr i = Some x → get arr j = Some y →
             prio mem y ≤ prio mem x.

Definition heap_ordered (s : PriorityQueue) : Prop :=
  heap_ordered_on (objects s) (heapArr s).

(** Ordering everywhere except between slot [k] and its parent, the state
    of the array while [bubbleUp] carries an entry through slot [k]. *)
Definition up_inv (mem : list Item) (arr : list ref) (k : Z) : Prop :=
  (∀ i j x y, child_of i j → j ≠ k → get arr i = Some x → get arr j = Some y →
              prio mem y ≤ prio mem x) ∧
  (∀ g c x y, child_of g k → child_of k c → get arr g = Some x →
              get arr c = Some y → prio mem y ≤ prio mem x).

(** Ordering everywhere except between slot [k] and its children, the state
    of the array while [bubbleDown] carries an entry through slot [k]. *)
Definition down_inv (mem : list Item) (arr : list ref) (k : Z) : Prop :=
  (∀ i j x y, child_of i j → i ≠ k → get arr i = Some x → get arr j = Some y →
              prio mem y ≤ prio mem x) ∧
  (∀ g c x y, child_of g k → child_of k c → get arr g = Some x →
              get arr c = Some y → prio mem y ≤ prio mem x).

(** The identity [r] is kept somewhere by the queue. *)
Definition stores (s : PriorityQueue) (r : ref) : Prop :=
  r ∈ heapArr s ∨ r ∈ references s ∨ r ∈ deletedElements s.

(** Shape of the states the methods produce: every kept identity is an
    object [add] has created, and no object sits in two slots. *)
Definition well_formed (s : PriorityQueue) : Prop :=
  NoDup (heapArr s) ∧ ∀ r, stores s r → (r < length (objects s))%nat.

(** What a call can do to the state, whether it returns or throws. *)
Inductive effect (s : PriorityQueue) : call → PriorityQueue → Prop :=
| effect_none c : effect s c s
| effect_add e z arr m :
    arr ≡ₚ heapArr s ++ [length (objects s)] →
    effect s (Add e (JNum z))
      {| heapArr := arr;
         counterDequeuedElements := counterDequeuedElements s + 1;
         prioritiesObj := m;
         references := {[length (objects s)]} ∪ references s;
         deletedElements := deletedElements s;
         objects := objects s ++ [{| element := e; priority := z |}] |}
| effect_next root rest arr m :
    heapArr s = root :: rest →
    arr ≡ₚ pop_into_root (heapArr s) →
    effect s Next
      {| heapArr := arr;
         counterDequeuedElements := counterDequeuedElements s;
         prioritiesObj := m;
         references := references s ∖ {[root]};
         deletedElements := {[root]} ∪ deletedElements s;
         objects := objects s |}
| effect_change r z arr m :
    r ∈ references s →
    arr ≡ₚ heapArr s →
    effect s (ChangePriority r (JNum z))
      {| heapArr := arr;
         counterDequeuedElements := counterDequeuedElements s;
         prioritiesObj := m;
         references := references s;
         deletedElements := deletedElements s;
         objects := write_priority (objects s) r z |}
| effect_remove c r m :
    (c = RemoveByRef r ∨
     ∃ p, c = RemoveByPosition (JNum p) ∧ get (heapArr s) (p - 1) = Some r) →
    r ∉ deletedElements s →
    r ∈ heapArr s →
    effect s c
      {| heapArr := delete (Z.to_nat (findIndex (heapArr s) r)) (heapArr s);
         counterDequeuedElements := counterDequeuedElements s;
         prioritiesObj := m;
         references := references s;
         deletedElements := {[r]} ∪ deletedElements s;
         objects := objects s |}
| effect_clear :
    effect s Clear
      {| heapArr := [];
         counterDequeuedElements := counterDequeuedElements s;
         prioritiesObj := ∅;
         references := ∅;
         deletedElements := ∅;
         objects := objects s |}.

(** The call [c], made in state [s], takes the entry [r] out of the queue. *)
Definition takes_out (r : ref) (c : call) (s : PriorityQueue) : Prop :=
  match c with
  | Next => head (heapArr s) = Some r
  | RemoveByRef r' => r' = r
  | RemoveByPosition (JNum p) => get (heapArr s) (p - 1) = Some r
  | Clear => True
  | _ => False
  end.

(** No call of the history [cs], started in [s], takes [r] out. *)
Fixpoint kept (r : ref) (cs : list call) (s : PriorityQueue) : Prop :=
  match cs with
  | [] => True
  | c :: rest => ¬ takes_out r c s ∧ kept r rest (run c s)
  end.

(** Executable check of the heap ordering: every slot against its parent. *)
Definition heap_orderedb (mem : list Item) (arr : list ref) : bool :=
  forallb
    (λ j, match get arr ((j - 1) `div` 2), get arr j with
          | Some x, Some y => bool_decide (prio mem y ≤ prio mem x)
          | _, _ => true
          end)
    (Z.of_nat <$> seq 1 (length arr - 1)).

(** Sum of the counts of a histogram; [None] when one of them is [NaN]. *)
Definition histogram_total (m : gmap Z count) : option Z :=
  map_fold (λ _ c acc, match c, acc with
                       | Count n, Some a => Some (n + a)
                       | _, _ => None
                       end) (Some 0) m.

(** The function leaves the queue alone and returns, whatever it is called
    on. *)
Definition inert (body : callback) : Prop :=
  ∀ pos el s, body pos el s = (Normal tt, s).

(** The order [forEach] visits the entries in. *)
Definition by_priority_desc (mem : list Item) : relation ref :=
  λ a b, prio mem b ≤ prio mem a.

(** ** Histories used as concrete inputs *)

(** One [add] on a new queue. *)
Definition one_entry : PriorityQueue :=
  run (Add (JStr "x") (JNum 1)) new_queue.

(** Three entries, stored as priorities [3; 1; 2]. *)
Definition three_entries : PriorityQueue :=
  run_all [Add (JStr "a") (JNum 3); Add (JStr "b") (JNum 1);
           Add (JStr "c") (JNum 2)] new_queue.

(** The script at the end of the source file, up to its [forEach] calls;
    [-12] stands for the priority [-12.123456789]. *)
Definition script : list call :=
  [Add (JStr "I came here first!") (JNum 1);
   Add (JStr "But I have higher priority!") (JNum 2);
   ChangePriority 0%nat (JNum 3);
   Next;
   Add (JFun "fnEl") (JNum 7);
   Add (JStr "objEl") (JNum (-12));
   Add (JStr "objEl") (JNum (-12));
   Add (JStr "objEl") (JNum (-12));
   RemoveByRef 4%nat;
   RemoveByPosition (JNum 4);
   RemoveByPosition (JNum 4);
   ChangePriority 3%nat (JNum 999)].

(** ** Further properties of histories *)

(** Number of [add] calls of a history that pass the check of the priority. *)
Fixpoint finite_adds (cs : list call) : Z :=
  match cs with
  | [] => 0
  | Add _ (JNum _) :: rest => 1 + finite_adds rest
  | _ :: rest => finite_adds rest
  end.

(** The call is [removeByRef] or [removeByPosition]. *)
Definition is_removal (c : call) : bool :=
  match c with
  | RemoveByRef _ | RemoveByPosition _ => true
  | _ => false
  end.

(** Number of stored entries of priority [p]. *)
Definition tally (mem : list Item) (arr : list ref) (p : Z) : Z :=
  Z.of_nat (length (filter (λ r, prio mem r = p) arr)).

(** The map [m] holds the count [f p] for each priority [p] that has one,
    and no key for the others. *)
Definition exact_on (m : gmap Z count) (f : Z → Z) : Prop :=
  ∀ p, m !! p = if decide (f p = 0) then None else Some (Count (f p)).

(** [stats] is the histogram of the stored priorities. *)
Definition histogram_exact (s : PriorityQueue) : Prop :=
  exact_on (stats s) (tally (objects s) (heapArr s)).

(** The map [increasePriority(p)] leaves in [prioritiesObj]. *)
Definition inc_count (p : Z) (m : gmap Z count) : gmap Z count :=
  match m !! p with
  | Some (Count n) =>
      if decide (n = 0) then <[p := Count 1]> m else <[p := Count (n + 1)]> m
  | Some NaN | None => <[p := Count 1]> m
  end.

(** The map [decreasePriority(p)] leaves in [prioritiesObj]. *)
Definition dec_count (p : Z) (m : gmap Z count) : gmap Z count :=
  match m !! p with
  | Some (Count n) =>
      if decide (n = 1) then delete p m else <[p := Count (n - 1)]> m
  | Some NaN | None => <[p := NaN]> m
  end.

(** The call does not run into one of the two defects that let the
    histogram and the storage drift apart: [next] on a queue of one entry,
    and [changePriority] on a reference that [removeByRef] has taken out of
    storage but left in [references]. *)
Definition avoids_defects (c : call) (s : PriorityQueue) : Prop :=
  match c with
  | Next => length (heapArr s) ≠ 1%nat
  | ChangePriority r (JNum _) => r ∈ references s → r ∈ heapArr s
  | _ => True
  end.

Fixpoint sound_history (cs : list call) (s : PriorityQueue) : Prop :=
  match cs with
  | [] => True
  | c :: rest => avoids_defects c s ∧ sound_history rest (run c s)
  end.

(** * Proofs *)

(** ** Array reads and writes *)

Lemma get_Some_range (arr : list ref) i x :
  get arr i = Some x → 0 ≤ i < Z.of_nat (length arr).
Proof.
  unfold get. case_decide; [|done].
  intros Hlt%lookup_lt_Some. lia.
Qed.

Lemma get_in_range (arr : list ref) i :
  0 ≤ i < Z.of_nat (length arr) → is_Some (get arr i).
Proof.
  intros [? ?]. unfold get. rewrite decide_True by done.
  apply lookup_lt_is_Some. lia.
Qed.

Lemma get_None_range (arr : list ref) i :
  get arr i = None → i < 0 ∨ Z.of_nat (length arr) ≤ i.
Proof.
  intros H. destruct (decide (0 ≤ i < Z.of_nat (length arr))) as [Hr|]; [|lia].
  apply get_in_range in Hr as [x Hx]. congruence.
Qed.

Lemma get_elem_of (arr : list ref) i x : get arr i = Some x → x ∈ arr.
Proof.
  unfold get. case_decide; [|done]. apply list_elem_of_lookup_2.
Qed.

Lemma elem_of_get (arr : list ref) x : x ∈ arr → ∃ i, get arr i = Some x.
Proof.
  intros [n Hn]%list_elem_of_lookup_1. exists (Z.of_nat n).
  unfold get. rewrite decide_True by lia. by rewrite Nat2Z.id.
Qed.

Lemma length_put arr i v : length (put arr i v) = length arr.
Proof. unfold put. case_decide; [apply length_insert|done]. Qed.

Lemma get_put_eq arr i v x : get arr i = Some x → get (put arr i v) i = Some v.
Proof.
  intros H. pose proof (get_Some_range _ _ _ H).
  unfold get, put. rewrite !decide_True by lia.
  apply list_lookup_insert_eq. lia.
Qed.

Lemma get_put_ne arr i j v : i ≠ j → get (put arr i v) j = get arr j.
Proof.
  intros Hne. unfold get, put. repeat case_decide; try done.
  apply list_lookup_insert_ne. lia.
Qed.

(** Exchanging the entries of two slots. *)
Lemma get_exchange arr i j x y k :
  get arr i = Some x → get arr j = Some y → i ≠ j →
  get (put (put arr i y) j x) k =
    if decide (k = j) then Some x
    else if decide (k = i) then Some y else get arr k.
Proof.
  intros Hi Hj Hne. repeat case_decide; subst.
  - eapply get_put_eq. rewrite get_put_ne by done. exact Hj.
  - rewrite get_put_ne by done. eapply get_put_eq, Hi.
  - rewrite !get_put_ne by done. done.
Qed.

Lemma exchange_Permutation arr i j x y :
  get arr i = Some x → get arr j = Some y → put (put arr i y) j x ≡ₚ arr.
Proof.
  intros Hi Hj.
  pose proof (get_Some_range _ _ _ Hi). pose proof (get_Some_range _ _ _ Hj).
  unfold get, put in *. rewrite !decide_True in * by lia.
  by apply Permutation_insert_swap.
Qed.

(** ** The two sifting loops *)

Lemma parent_child k : 0 < k → child_of ((k - 1) `div` 2) k.
Proof.
  intros Hk. unfold child_of.
  pose proof (Z.div_mod (k - 1) 2). pose proof (Z.mod_pos_bound (k - 1) 2). lia.
Qed.

Ltac layout := unfold child_of in *; lia.

Section loops.
Context (mem : list Item).

Lemma heap_ordered_up_inv arr k : heap_ordered_on mem arr → up_inv mem arr k.
Proof.
  intros H. split.
  - intros i j x y Hc _ Hx Hy. by eapply H.
  - intros g c x y Hg Hc Hx Hy.
    destruct (get arr k) as [z|] eqn:Hz.
    + etrans; [eapply (H k c); eauto | eapply (H g k); eauto].
    + apply get_None_range in Hz.
      apply get_Some_range in Hx. apply get_Some_range in Hy. layout.
Qed.

Lemma heap_ordered_down_inv arr k : heap_ordered_on mem arr → down_inv mem arr k.
Proof.
  intros H. split; [|by apply heap_ordered_up_inv].
  intros i j x y Hc _ Hx Hy. by eapply H.
Qed.

(** With nothing in slot [k] there is no pair left to repair. *)
Lemma up_inv_undefined arr k :
  get arr k = None → up_inv mem arr k → heap_ordered_on mem arr.
Proof.
  intros Hk [H1 _] i j x y Hc Hx Hy. eapply H1; eauto. congruence.
Qed.

Lemma down_inv_undefined arr k :
  get arr k = None → down_inv mem arr k → heap_ordered_on mem arr.
Proof.
  intros Hk [H1 _] i j x y Hc Hx Hy. eapply H1; eauto. congruence.
Qed.

(** One exchange of [bubbleUp] moves the gap in the ordering one level up. *)
Lemma up_inv_exchange arr k pe ne :
  0 < k →
  get arr ((k - 1) `div` 2) = Some pe → get arr k = Some ne →
  prio mem pe < prio mem ne →
  up_inv mem arr k →
  up_inv mem (put (put arr ((k - 1) `div` 2) ne) k pe) ((k - 1) `div` 2).
Proof.
  intros Hk Hq Hne Hlt [H1 H2].
  pose proof (parent_child k Hk) as Hqk.
  set (q := (k - 1) `div` 2) in *.
  assert (q ≠ k) by layout.
  split.
  - intros i j x y Hc Hj.
    rewrite !(get_exchange arr q k pe ne) by done.
    destruct (decide (j = k)) as [->|Hjk].
    + assert (i = q) as -> by layout.
      rewrite decide_False, decide_True by done.
      intros; simplify_eq. lia.
    + rewrite (decide_False (P := j = q)) by done.
      destruct (decide (i = k)) as [->|Hik].
      * intros; simplify_eq. eapply (H2 q j); eauto.
      * destruct (decide (i = q)) as [->|Hiq].
        -- intros; simplify_eq.
           assert (prio mem y ≤ prio mem pe) by (eapply (H1 q j); eauto). lia.
        -- intros. eapply (H1 i j); eauto.
  - intros g c x y Hg Hc.
    rewrite !(get_exchange arr q k pe ne) by done.
    rewrite (decide_False (P := g = k)), (decide_False (P := g = q)) by layout.
    destruct (decide (c = k)) as [->|Hck].
    + intros; simplify_eq. eapply (H1 g q); eauto.
    + rewrite (decide_False (P := c = q)) by layout.
      intros.
      assert (prio mem y ≤ prio mem pe) by (eapply (H1 q c); eauto).
      assert (prio mem pe ≤ prio mem x) by (eapply (H1 g q); eauto). lia.
Qed.

(** [bubbleUp] from an occupied slot returns, with the ordering restored. *)
Lemma bubbleUp_loop_defined fuel arr k ne :
  get arr k = Some ne → (Z.to_nat k < fuel)%nat →
  ∃ arr', bubbleUp_loop fuel mem (Some ne) arr k = (Normal tt, arr') ∧
          arr' ≡ₚ arr ∧
          (up_inv mem arr k → heap_ordered_on mem arr').
Proof.
  revert arr k. induction fuel as [|fuel IH]; intros arr k Hne Hfuel; [lia|].
  pose proof (get_Some_range _ _ _ Hne) as Hrange.
  simpl. destruct (decide (k = 0)) as [->|Hk0].
  { exists arr. split_and!; [done..|].
    intros [H1 _] i j x y Hc Hx Hy. eapply H1; eauto.
    apply get_Some_range in Hx. layout. }
  pose proof (parent_child k ltac:(lia)) as Hqk.
  destruct (get_in_range arr ((k - 1) `div` 2) ltac:(layout)) as [pe Hpe].
  rewrite Hpe.
  destruct (decide (prio mem ne ≤ prio mem pe)) as [Hle|Hgt].
  { exists arr. split_and!; [done..|].
    intros [H1 _] i j x y Hc Hx Hy.
    destruct (decide (j = k)) as [->|]; [|by eapply H1].
    assert (i = (k - 1) `div` 2) as -> by layout. by simplify_eq. }
  assert ((k - 1) `div` 2 ≠ k) by layout.
  destruct (IH (put (put arr ((k - 1) `div` 2) ne) k pe) ((k - 1) `div` 2))
    as (arr' & Hrun & Hperm & Hheap).
  { rewrite (get_exchange arr _ k pe ne) by done.
    rewrite decide_False, decide_True by done. done. }
  { assert (0 ≤ (k - 1) `div` 2 < k) by layout. lia. }
  exists arr'. split_and!; [done| |].
  - rewrite Hperm. by eapply exchange_Permutation.
  - intros Hinv. apply Hheap. apply up_inv_exchange; [lia|done..|lia|done].
Qed.

(** [bubbleUp] from an empty slot writes nothing. *)
Lemma bubbleUp_loop_undefined fuel arr k :
  get arr k = None →
  bubbleUp_loop (S fuel) mem None arr k = (Normal tt, arr) ∨
  bubbleUp_loop (S fuel) mem None arr k = (Throw TypeError, arr).
Proof.
  intros Hk. simpl. destruct (decide (k = 0)); [by left|].
  right. by destruct (get arr ((k - 1) `div` 2)).
Qed.
End loops.

Section loops_down.
Context (mem : list Item).

Lemma exceeds_defined arr child our o :
  get arr our = Some o → 0 ≤ child →
  exceeds mem arr child our =
    Normal (match get arr child with
            | Some c => bool_decide (prio mem o < prio mem c)
            | None => false
            end).
Proof.
  intros Ho Hc. unfold exceeds.
  destruct (decide (child < Z.of_nat (length arr))) as [Hlt|Hge].
  - destruct (get_in_range arr child ltac:(lia)) as [c Hget].
    by rewrite Hget, Ho.
  - destruct (get arr child) as [c|] eqn:Hget; [|done].
    apply get_Some_range in Hget. lia.
Qed.

(** What the two comparisons of one round of [bubbleDown] select. *)
Lemma select_child arr k a :
  get arr k = Some a →
  ∃ bl br,
    exceeds mem arr (2 * k + 1) k = Normal bl ∧
    exceeds mem arr (2 * k + 2) (if bl then 2 * k + 1 else k) = Normal br ∧
    ∃ cm, get arr (if br then 2 * k + 2 else if bl then 2 * k + 1 else k) = Some cm ∧
      (∀ j y, child_of k j → get arr j = Some y → prio mem y ≤ prio mem cm) ∧
      ((br = false ∧ bl = false ∧ cm = a) ∨ prio mem a < prio mem cm).
Proof.
  intros Ha. pose proof (get_Some_range _ _ _ Ha) as Hk.
  pose proof (exceeds_defined arr (2 * k + 1) k a Ha ltac:(lia)) as Hel.
  assert (get arr (2 * k + 1) = None → get arr (2 * k + 2) = None) as Hnone.
  { intros Hl. destruct (get arr (2 * k + 2)) as [cr|] eqn:Hr; [|done].
    apply get_Some_range in Hr. apply get_None_range in Hl. lia. }
  destruct (get arr (2 * k + 1)) as [cl|] eqn:Hl;
    [destruct (bool_decide (prio mem a < prio mem cl)) eqn:Hbl;
     [apply bool_decide_eq_true in Hbl|apply bool_decide_eq_false in Hbl]|].
  - exists true.
    pose proof (exceeds_defined arr (2 * k + 2) (2 * k + 1) cl Hl ltac:(lia)) as Her.
    destruct (get arr (2 * k + 2)) as [cr|] eqn:Hr;
      [destruct (bool_decide (prio mem cl < prio mem cr)) eqn:Hbr;
       [apply bool_decide_eq_true in Hbr|apply bool_decide_eq_false in Hbr]|].
    + exists true. split_and!; [done..|].
      exists cr. split_and!; [done| |right; lia].
      intros j y [->| ->] Hy; simplify_eq; lia.
    + exists false. split_and!; [done..|].
      exists cl. split_and!; [done| |right; lia].
      intros j y [->| ->] Hy; simplify_eq; lia.
    + exists false. split_and!; [done..|].
      exists cl. split_and!; [done| |right; lia].
      intros j y [->| ->] Hy; simplify_eq; lia.
  - exists false.
    pose proof (exceeds_defined arr (2 * k + 2) k a Ha ltac:(lia)) as Her.
    destruct (get arr (2 * k + 2)) as [cr|] eqn:Hr;
      [destruct (bool_decide (prio mem a < prio mem cr)) eqn:Hbr;
       [apply bool_decide_eq_true in Hbr|apply bool_decide_eq_false in Hbr]|].
    + exists true. split_and!; [done..|].
      exists cr. split_and!; [done| |right; lia].
      intros j y [->| ->] Hy; simplify_eq; lia.
    + exists false. split_and!; [done..|].
      exists a. split_and!; [done| |by left].
      intros j y [->| ->] Hy; simplify_eq; lia.
    + exists false. split_and!; [done..|].
      exists a. split_and!; [done| |by left].
      intros j y [->| ->] Hy; simplify_eq; lia.
  - exists false.
    pose proof (exceeds_defined arr (2 * k + 2) k a Ha ltac:(lia)) as Her.
    rewrite (Hnone eq_refl) in Her.
    exists false. split_and!; [done..|].
    exists a. split_and!; [done| |by left].
    intros j y [->| ->] Hy; simplify_eq. by rewrite (Hnone eq_refl) in Hy.
Qed.

(** One exchange of [bubbleDown] moves the gap in the ordering one level
    down. *)
Lemma down_inv_exchange arr k m a cm :
  get arr k = Some a → get arr m = Some cm → child_of k m →
  prio mem a < prio mem cm →
  (∀ j y, child_of k j → get arr j = Some y → prio mem y ≤ prio mem cm) →
  down_inv mem arr k →
  down_inv mem (put (put arr k cm) m a) m.
Proof.
  intros Ha Hcm Hkm Hlt Hmax [H1 H2].
  pose proof (get_Some_range _ _ _ Ha) as Hk.
  assert (k ≠ m) by layout.
  split.
  - intros i j x y Hc Hi.
    rewrite !(get_exchange arr k m a cm) by done.
    rewrite (decide_False (P := i = m)) by done.
    destruct (decide (i = k)) as [->|Hik].
    + destruct (decide (j = m)) as [->|Hjm].
      * intros; simplify_eq. lia.
      * rewrite (decide_False (P := j = k)) by layout.
        intros; simplify_eq. by eapply Hmax.
    + rewrite (decide_False (P := j = m)) by layout.
      destruct (decide (j = k)) as [->|Hjk].
      * intros; simplify_eq. eapply (H2 i m); eauto.
      * intros. eapply (H1 i j); eauto.
  - intros g c x y Hg Hc.
    assert (g = k) as -> by layout.
    rewrite !(get_exchange arr k m a cm) by done.
    rewrite (decide_False (P := k = m)), (decide_True (P := k = k)) by done.
    rewrite (decide_False (P := c = m)), (decide_False (P := c = k)) by layout.
    intros; simplify_eq. eapply (H1 m c); eauto.
Qed.

(** [bubbleDown] from an occupied slot returns, with the ordering
    restored. *)
Lemma bubbleDown_loop_defined fuel arr k a :
  get arr k = Some a → Z.of_nat (length arr) - k ≤ Z.of_nat fuel →
  ∃ arr', bubbleDown_loop fuel mem (Some a) arr k = (Normal tt, arr') ∧
          arr' ≡ₚ arr ∧
          (down_inv mem arr k → heap_ordered_on mem arr').
Proof.
  revert arr k. induction fuel as [|fuel IH]; intros arr k Ha Hfuel.
  { apply get_Some_range in Ha. lia. }
  pose proof (get_Some_range _ _ _ Ha) as Hk.
  destruct (select_child arr k a Ha) as (bl & br & Hel & Her & cm & Hcm & Hmax & Hsel).
  simpl. rewrite Hel, Her.
  destruct Hsel as [(-> & -> & ->)|Hlt].
  { rewrite decide_True by done. exists arr. split_and!; [done..|].
    intros [H1 _] i j x y Hc Hx Hy.
    destruct (decide (i = k)) as [->|]; [|by eapply H1].
    simplify_eq. by eapply Hmax. }
  set (m := if br then 2 * k + 2 else if bl then 2 * k + 1 else k) in *.
  assert (m ≠ k) as Hmk.
  { intros Heq. rewrite Heq in Hcm. simplify_eq. lia. }
  assert (child_of k m) as Hkm.
  { subst m. destruct br, bl; unfold child_of; lia. }
  rewrite decide_False by done. rewrite Hcm.
  destruct (IH (put (put arr k cm) m a) m) as (arr' & Hrun & Hperm & Hheap).
  { rewrite (get_exchange arr k m a cm) by done. by rewrite decide_True. }
  { rewrite !length_put. layout. }
  exists arr'. split_and!; [done| |].
  - rewrite Hperm. by eapply exchange_Permutation.
  - intros Hinv. apply Hheap. by apply down_inv_exchange.
Qed.

(** [bubbleDown] from an empty slot writes nothing. *)
Lemma bubbleDown_loop_undefined fuel arr k :
  get arr k = None →
  bubbleDown_loop (S fuel) mem None arr k = (Normal tt, arr) ∨
  bubbleDown_loop (S fuel) mem None arr k = (Throw TypeError, arr).
Proof.
  intros Hk. simpl. unfold exceeds. rewrite Hk.
  destruct (decide (2 * k + 1 < Z.of_nat (length arr))) as [Hl|Hl].
  { right. by destruct (get arr (2 * k + 1)). }
  rewrite Hk. rewrite decide_False by lia. rewrite decide_True by done. by left.
Qed.
End loops_down.

(** ** The helpers as state transformers *)

Lemma bubbleUp_spec k s :
  ∃ c arr', bubbleUp k s = (c, set_heapArr arr' s) ∧ c ≠ Stuck ∧
    arr' ≡ₚ heapArr s ∧
    (is_Some (get (heapArr s) k) → c = Normal tt) ∧
    (up_inv (objects s) (heapArr s) k → heap_ordered_on (objects s) arr').
Proof.
  unfold bubbleUp. destruct (get (heapArr s) k) as [ne|] eqn:Hk.
  - destruct (bubbleUp_loop_defined (objects s) (S (Z.to_nat k)) (heapArr s) k ne)
      as (arr' & -> & Hperm & Hheap); [done|lia|].
    exists (Normal tt), arr'. by split_and!.
  - destruct (bubbleUp_loop_undefined (objects s) (Z.to_nat k) (heapArr s) k Hk)
      as [-> | ->].
    + exists (Normal tt), (heapArr s). split_and!; [done..|].
      by apply up_inv_undefined.
    + exists (Throw TypeError), (heapArr s).
      split_and!; [done..|by intros [? ?]|by apply up_inv_undefined].
Qed.

Lemma bubbleDown_spec k s :
  ∃ c arr', bubbleDown k s = (c, set_heapArr arr' s) ∧ c ≠ Stuck ∧
    arr' ≡ₚ heapArr s ∧
    (is_Some (get (heapArr s) k) → c = Normal tt) ∧
    (down_inv (objects s) (heapArr s) k → heap_ordered_on (objects s) arr').
Proof.
  unfold bubbleDown. destruct (get (heapArr s) k) as [a|] eqn:Hk.
  - destruct (bubbleDown_loop_defined (objects s) (S (length (heapArr s)))
                (heapArr s) k a) as (arr' & -> & Hperm & Hheap); [done| |].
    { apply get_Some_range in Hk. lia. }
    exists (Normal tt), arr'. by split_and!.
  - destruct (bubbleDown_loop_undefined (objects s) (length (heapArr s))
                (heapArr s) k Hk) as [-> | ->].
    + exists (Normal tt), (heapArr s). split_and!; [done..|].
      by apply down_inv_undefined.
    + exists (Throw TypeError), (heapArr s).
      split_and!; [done..|by intros [? ?]|by apply down_inv_undefined].
Qed.

Lemma increasePriority_spec p s :
  ∃ m, increasePriority p s = (Normal tt, set_prioritiesObj m s).
Proof.
  unfold increasePriority, modify.
  destruct (prioritiesObj s !! p) as [[n|]|]; [case_decide|..]; eauto.
Qed.

Lemma decreasePriority_spec p s :
  ∃ m, decreasePriority p s = (Normal tt, set_prioritiesObj m s).
Proof.
  unfold decreasePriority, modify.
  destruct (prioritiesObj s !! p) as [[n|]|]; [case_decide|..]; eauto.
Qed.

Opaque bubbleUp bubbleDown increasePriority decreasePriority.

(** The scan finds the first slot holding the reference. *)
Lemma scan_Some arr r i k :
  scan arr r i = Some k → i ≤ k ∧ get arr (k - i) = Some r.
Proof.
  revert i. induction arr as [|x arr IH]; intros i; simpl; [done|].
  case_decide.
  - intros; simplify_eq. by rewrite Z.sub_diag.
  - intros [? Hget]%IH. split; [lia|].
    unfold get in *. rewrite decide_True in Hget by lia. rewrite decide_True by lia.
    replace (Z.to_nat (k - i)) with (S (Z.to_nat (k - (i + 1)))) by lia. done.
Qed.

Lemma scan_None arr r i : scan arr r i = None ↔ r ∉ arr.
Proof.
  revert i. induction arr as [|x arr IH]; intros i; simpl.
  - split; [intros _; apply not_elem_of_nil|done].
  - case_decide; subst.
    + split; [done|]. intros []. by left.
    + rewrite IH, not_elem_of_cons. split; [by split|by intros [_ ?]].
Qed.

Lemma scan_elem_of arr r : r ∈ arr → ∃ k, scan arr r 0 = Some k.
Proof.
  intros Hin. destruct (scan arr r 0) as [k|] eqn:Hs; [eauto|].
  by apply scan_None in Hs.
Qed.

Lemma add_spec e z s :
  ∃ arr m,
    add e (JNum z) s =
      (Normal (length (objects s)),
       {| heapArr := arr;
          counterDequeuedElements := counterDequeuedElements s + 1;
          prioritiesObj := m;
          references := {[length (objects s)]} ∪ references s;
          deletedElements := deletedElements s;
          objects := objects s ++ [{| element := e; priority := z |}] |}) ∧
    arr ≡ₚ heapArr s ++ [length (objects s)] ∧
    (up_inv (objects s ++ [{| element := e; priority := z |}])
            (heapArr s ++ [length (objects s)])
            (Z.of_nat (length (heapArr s))) →
     heap_ordered_on (objects s ++ [{| element := e; priority := z |}]) arr).
Proof.
  unfold add, isNumber, bind, ret, gets, modify. simpl.
  match goal with |- context [bubbleUp ?k ?st] =>
    destruct (bubbleUp_spec k st) as (c & arr & -> & _ & Hperm & Hdef & Hheap) end.
  simpl in *. rewrite Hdef.
  2:{ apply get_in_range. rewrite length_app. simpl. lia. }
  match goal with |- context [increasePriority ?k ?st] =>
    destruct (increasePriority_spec k st) as (m & ->) end.
  simpl. exists arr, m. split_and!; [done..|].
  intros Hinv. apply Hheap.
  rewrite length_app. simpl.
  replace (Z.of_nat (length (heapArr s) + 1) - 1) with (Z.of_nat (length (heapArr s))) by lia.
  done.
Qed.

(** ** [next]: the root leaves, the last entry takes its slot *)

Lemma pop_into_root_single root : pop_into_root [root] = [root].
Proof. done. Qed.

Lemma pop_into_root_snoc root mid popped :
  pop_into_root (root :: mid ++ [popped]) = popped :: mid.
Proof.
  unfold pop_into_root.
  change (root :: mid ++ [popped]) with ((root :: mid) ++ [popped]).
  by rewrite last_snoc, removelast_last.
Qed.

Lemma nonempty_shape (root : ref) (rest : list ref) :
  rest = [] ∨ ∃ mid popped, rest = mid ++ [popped].
Proof.
  destruct (last rest) as [x|] eqn:Hl.
  - right. apply last_Some in Hl as [mid ->]. eauto.
  - left. by apply last_None.
Qed.

Lemma pop_into_root_length arr : arr ≠ [] → length (pop_into_root arr) ≠ 0%nat.
Proof.
  destruct arr as [|root rest]; [done|]. intros _.
  destruct (nonempty_shape root rest) as [->|(mid & popped & ->)].
  - done.
  - by rewrite pop_into_root_snoc.
Qed.

Lemma get_after_pop root mid popped i (x : ref) :
  0 < i → get (popped :: mid) i = Some x →
  get (root :: mid ++ [popped]) i = Some x.
Proof.
  intros Hi. unfold get. rewrite !decide_True by lia.
  destruct (Z.to_nat i) as [|n] eqn:Hn; [lia|]. simpl.
  intros H. by apply lookup_app_l_Some.
Qed.

Lemma pop_into_root_down_inv mem arr :
  heap_ordered_on mem arr → down_inv mem (pop_into_root arr) 0.
Proof.
  intros H. destruct arr as [|root rest]; [by apply heap_ordered_down_inv|].
  destruct (nonempty_shape root rest) as [->|(mid & popped & ->)].
  { by apply heap_ordered_down_inv. }
  rewrite pop_into_root_snoc. split.
  - intros i j x y Hc Hi Hx Hy.
    pose proof (get_Some_range _ _ _ Hx).
    apply (get_after_pop root) in Hx; [|lia].
    apply (get_after_pop root) in Hy; [|layout].
    by eapply H.
  - intros g c x y Hg _ Hx _. apply get_Some_range in Hx. layout.
Qed.

Lemma pop_into_root_elem_of arr root rest r :
  arr = root :: rest → r ≠ root → r ∈ arr → r ∈ pop_into_root arr.
Proof.
  intros -> Hne Hin.
  destruct (nonempty_shape root rest) as [->|(mid & popped & ->)]; [done|].
  rewrite pop_into_root_snoc.
  rewrite elem_of_cons, elem_of_app, list_elem_of_singleton in Hin.
  rewrite elem_of_cons. destruct Hin as [->|[?| ->]]; [done|by right|by left].
Qed.

Lemma pop_into_root_subseteq arr : pop_into_root arr ⊆ arr.
Proof.
  destruct arr as [|root rest]; [done|].
  destruct (nonempty_shape root rest) as [->|(mid & popped & ->)]; [done|].
  rewrite pop_into_root_snoc. intros r.
  rewrite !elem_of_cons, elem_of_app, list_elem_of_singleton.
  intros [->|?]; [right; by right|right; by left].
Qed.

Lemma pop_into_root_NoDup arr : NoDup arr → NoDup (pop_into_root arr).
Proof.
  destruct arr as [|root rest]; [done|].
  destruct (nonempty_shape root rest) as [->|(mid & popped & ->)]; [done|].
  rewrite pop_into_root_snoc.
  rewrite !NoDup_cons, NoDup_app. intros (_ & Hmid & Hdisj & _).
  split; [|done]. intros Hin. eapply Hdisj; [done|]. by left.
Qed.

Lemma next_empty s : heapArr s = [] → next s = (Normal JNull, s).
Proof. intros H. unfold next. by rewrite H. Qed.

Lemma next_nonempty s root rest :
  heapArr s = root :: rest →
  ∃ arr m,
    next s =
      (Normal (element (item_of (objects s) root)),
       {| heapArr := arr;
          counterDequeuedElements := counterDequeuedElements s;
          prioritiesObj := m;
          references := references s ∖ {[root]};
          deletedElements := {[root]} ∪ deletedElements s;
          objects := objects s |}) ∧
    arr ≡ₚ pop_into_root (heapArr s) ∧
    (heap_ordered s → heap_ordered_on (objects s) arr).
Proof.
  destruct s as [arr0 cnt m0 refs del mem]. simpl. intros ->.
  unfold next, heap_ordered, bind, ret, gets, modify. simpl.
  rewrite decide_False by (by apply pop_into_root_length).
  match goal with |- context [bubbleDown ?k ?st] =>
    destruct (bubbleDown_spec k st) as (c & arr & -> & _ & Hperm & Hdef & Hheap) end.
  simpl in *. rewrite Hdef.
  2:{ apply get_in_range.
      pose proof (pop_into_root_length (root :: rest) ltac:(done)). lia. }
  match goal with |- context [decreasePriority ?k ?st] =>
    destruct (decreasePriority_spec k st) as (m & ->) end.
  simpl. exists arr, m. split_and!; [done..|].
  intros H. by apply Hheap, pop_into_root_down_inv.
Qed.

(** ** [changePriority]: a write to the shared object, then one sift *)

Lemma prio_write mem r p r' :
  prio (write_priority mem r p) r' =
    if decide (r' = r ∧ (r < length mem)%nat) then p else prio mem r'.
Proof.
  unfold prio, item_of, write_priority.
  rewrite list_lookup_insert.
  repeat case_decide; simpl; try done; exfalso; destruct_and?; subst; tauto.
Qed.

Lemma findIndex_unique arr r j :
  NoDup arr → get arr j = Some r → j = findIndex arr r.
Proof.
  intros Hnd Hj. unfold findIndex.
  destruct (scan arr r 0) as [k|] eqn:Hs.
  - apply scan_Some in Hs as [? Hk]. rewrite Z.sub_0_r in Hk. simpl.
    pose proof (get_Some_range _ _ _ Hj). pose proof (get_Some_range _ _ _ Hk).
    unfold get in *.
    rewrite decide_True in Hj by lia. rewrite decide_True in Hk by lia.
    pose proof (NoDup_lookup _ _ _ _ Hnd Hj Hk). lia.
  - apply scan_None in Hs. by apply get_elem_of in Hj.
Qed.

Lemma findIndex_get arr r :
  r ∈ arr → get arr (findIndex arr r) = Some r.
Proof.
  intros [k Hs]%scan_elem_of. unfold findIndex. rewrite Hs. simpl.
  apply scan_Some in Hs as [_ Hk]. by rewrite Z.sub_0_r in Hk.
Qed.

Section write.
Context (mem : list Item) (arr : list ref) (r : ref) (p : Z).
Context (Hnd : NoDup arr) (Hheap : heap_ordered_on mem arr).

Lemma write_priority_same :
  p = prio mem r → heap_ordered_on (write_priority mem r p) arr.
Proof.
  intros Hp i j x y Hc Hx Hy. rewrite !prio_write.
  assert (prio mem y ≤ prio mem x) by (by eapply Hheap).
  repeat case_decide; destruct_and?; subst; lia.
Qed.

Lemma write_priority_grand g c x y :
  child_of g (findIndex arr r) → child_of (findIndex arr r) c →
  get arr g = Some x → get arr c = Some y →
  prio (write_priority mem r p) y ≤ prio (write_priority mem r p) x.
Proof.
  intros Hg Hc Hx Hy. rewrite !prio_write.
  pose proof (get_Some_range _ _ _ Hx). pose proof (get_Some_range _ _ _ Hy).
  rewrite !decide_False.
  - by eapply (heap_ordered_up_inv mem arr (findIndex arr r) Hheap).
  - intros [-> _]. apply findIndex_unique in Hx; [layout|done].
  - intros [-> _]. apply findIndex_unique in Hy; [layout|done].
Qed.

Lemma write_priority_down_inv :
  p ≤ prio mem r → down_inv (write_priority mem r p) arr (findIndex arr r).
Proof.
  intros Hp. split; [|apply write_priority_grand].
  intros i j x y Hc Hi Hx Hy. rewrite !prio_write.
  assert (prio mem y ≤ prio mem x) by (by eapply Hheap).
  rewrite (decide_False (P := x = r ∧ _)).
  2:{ intros [-> _]. by apply Hi, findIndex_unique. }
  case_decide; destruct_and?; subst; lia.
Qed.

Lemma write_priority_up_inv :
  prio mem r ≤ p → up_inv (write_priority mem r p) arr (findIndex arr r).
Proof.
  intros Hp. split; [|apply write_priority_grand].
  intros i j x y Hc Hj Hx Hy. rewrite !prio_write.
  assert (prio mem y ≤ prio mem x) by (by eapply Hheap).
  rewrite (decide_False (P := y = r ∧ _)).
  2:{ intros [-> _]. by apply Hj, findIndex_unique. }
  case_decide; destruct_and?; subst; lia.
Qed.
End write.

Ltac use_bubbleUp :=
  match goal with |- context [bubbleUp ?k ?st] =>
    let c := fresh "c" in let arr := fresh "arr" in
    let Hns := fresh "Hns" in let Hperm := fresh "Hperm" in
    let Hdef := fresh "Hdef" in let Hord := fresh "Hord" in
    destruct (bubbleUp_spec k st) as (c & arr & -> & Hns & Hperm & Hdef & Hord)
  end.

Ltac use_bubbleDown :=
  match goal with |- context [bubbleDown ?k ?st] =>
    let c := fresh "c" in let arr := fresh "arr" in
    let Hns := fresh "Hns" in let Hperm := fresh "Hperm" in
    let Hdef := fresh "Hdef" in let Hord := fresh "Hord" in
    destruct (bubbleDown_spec k st) as (c & arr & -> & Hns & Hperm & Hdef & Hord)
  end.

Ltac use_increasePriority :=
  match goal with |- context [increasePriority ?k ?st] =>
    let m := fresh "m" in destruct (increasePriority_spec k st) as (m & ->)
  end.

Ltac use_decreasePriority :=
  match goal with |- context [decreasePriority ?k ?st] =>
    let m := fresh "m" in destruct (decreasePriority_spec k st) as (m & ->)
  end.

Ltac run_monad := unfold bind, ret, throw, gets, modify; simpl.

Lemma changePriority_not_number r v s :
  (∀ z, v ≠ JNum z) → changePriority r v s = (Throw TypeError, s).
Proof. intros Hv. destruct v; try done. by destruct (Hv z). Qed.

Lemma changePriority_not_member r z s :
  r ∉ references s → changePriority r (JNum z) s = (Throw ReferenceError, s).
Proof.
  intros Hr. unfold changePriority, isNumber. run_monad.
  by rewrite bool_decide_eq_false_2.
Qed.

Lemma changePriority_member r z s :
  r ∈ references s →
  ∃ c arr m,
    changePriority r (JNum z) s =
      (c, {| heapArr := arr;
             counterDequeuedElements := counterDequeuedElements s;
             prioritiesObj := m;
             references := references s;
             deletedElements := deletedElements s;
             objects := write_priority (objects s) r z |}) ∧
    c ≠ Stuck ∧
    arr ≡ₚ heapArr s ∧
    (r ∈ heapArr s → c = Normal (findIndex arr r + 1)) ∧
    (NoDup (heapArr s) → heap_ordered s →
     heap_ordered_on (write_priority (objects s) r z) arr).
Proof.
  destruct s as [arr0 cnt m0 refs del mem]. simpl. intros Hr.
  unfold changePriority, isNumber, getValueByReference, heap_ordered.
  run_monad.
  rewrite bool_decide_eq_true_2 by done. simpl.
  rewrite decide_True by done.
  use_decreasePriority. simpl. use_increasePriority. simpl.
  destruct (decide (z < prio mem r)) as [Hlt|Hge];
    [|destruct (decide (prio mem r < z)) as [Hgt|Hle]].
  - use_bubbleDown. simpl in *.
    assert (r ∈ arr0 → c = Normal ()) as Hin.
    { intros Hin. by apply Hdef; rewrite findIndex_get. }
    assert (NoDup arr0 → heap_ordered_on mem arr0 →
            heap_ordered_on (write_priority mem r z) arr) as Hheap.
    { intros. apply Hord, write_priority_down_inv; [done..|lia]. }
    destruct c as [[]|e|]; [|simpl|done].
    + rewrite bool_decide_eq_true_2 by done.
      eexists _, arr, _. by split_and!.
    + eexists _, arr, _. split_and!; [done..| |done].
      intros Hin'. by specialize (Hin Hin').
  - use_bubbleUp. simpl in *.
    assert (r ∈ arr0 → c = Normal ()) as Hin.
    { intros Hin. by apply Hdef; rewrite findIndex_get. }
    assert (NoDup arr0 → heap_ordered_on mem arr0 →
            heap_ordered_on (write_priority mem r z) arr) as Hheap.
    { intros. apply Hord, write_priority_up_inv; [done..|lia]. }
    destruct c as [[]|e|]; [|simpl|done].
    + rewrite bool_decide_eq_true_2 by done.
      eexists _, arr, _. by split_and!.
    + eexists _, arr, _. split_and!; [done..| |done].
      intros Hin'. by specialize (Hin Hin').
  - rewrite bool_decide_eq_true_2 by done.
    eexists _, arr0, _. split_and!; [done..|].
    intros. apply write_priority_same; [done|lia].
Qed.

(** ** Removal, lookup and traversal *)

Lemma removeByRef_deleted r s :
  r ∈ deletedElements s → removeByRef r s = (Normal false, s).
Proof.
  intros Hr. unfold removeByRef. run_monad. by rewrite bool_decide_eq_true_2.
Qed.

Lemma removeByRef_unknown r s :
  r ∉ deletedElements s → r ∉ heapArr s →
  removeByRef r s = (Throw ReferenceError, s).
Proof.
  intros Hd Hr. unfold removeByRef, getIndexByReference. run_monad.
  rewrite bool_decide_eq_false_2 by done. simpl.
  by rewrite (proj2 (scan_None _ _ _) Hr).
Qed.

Lemma removeByRef_present r s :
  r ∉ deletedElements s → r ∈ heapArr s →
  ∃ m, removeByRef r s =
    (Normal true,
     {| heapArr := delete (Z.to_nat (findIndex (heapArr s) r)) (heapArr s);
        counterDequeuedElements := counterDequeuedElements s;
        prioritiesObj := m;
        references := references s;
        deletedElements := {[r]} ∪ deletedElements s;
        objects := objects s |}).
Proof.
  destruct s as [arr0 cnt m0 refs del mem]. simpl. intros Hd Hr.
  pose proof (findIndex_get _ _ Hr) as Hget.
  unfold removeByRef, getIndexByReference. run_monad.
  rewrite bool_decide_eq_false_2 by done. simpl.
  unfold findIndex in *. destruct (scan arr0 r 0) as [k|] eqn:Hs.
  2:{ by apply scan_None in Hs. }
  simpl in *. rewrite Hget. use_decreasePriority. simpl. eauto.
Qed.

Lemma removeByPosition_cases v s :
  (∃ e, removeByPosition v s = (Throw e, s)) ∨
  removeByPosition v s = (Normal false, s) ∨
  ∃ p item b s', v = JNum p ∧ get (heapArr s) (p - 1) = Some item ∧
    removeByRef item s = (Normal b, s') ∧
    removeByPosition v s = (Normal true, s').
Proof.
  unfold removeByPosition, isNumber.
  destruct v as [| | |p| | | |]; try (left; by eexists).
  run_monad. case_decide; [left; by eexists|].
  case_decide; [by right; left|].
  destruct (get_in_range (heapArr s) (p - 1) ltac:(lia)) as [item Hitem].
  rewrite Hitem. right; right. exists p, item.
  destruct (decide (item ∈ deletedElements s)) as [Hd|Hd].
  { rewrite removeByRef_deleted by done. by eexists _, _. }
  destruct (removeByRef_present item s Hd) as [m ->].
  { by eapply get_elem_of. }
  by eexists _, _.
Qed.

Lemma positionOf_present r s :
  r ∈ heapArr s → positionOf r s = (Normal (findIndex (heapArr s) r + 1), s).
Proof.
  intros [k Hs]%scan_elem_of.
  unfold positionOf, getIndexByReference, findIndex. run_monad. by rewrite Hs.
Qed.

Lemma positionOf_absent r s :
  r ∉ heapArr s → positionOf r s = (Throw ReferenceError, s).
Proof.
  intros Hr. unfold positionOf, getIndexByReference. run_monad.
  by rewrite (proj2 (scan_None _ _ _) Hr).
Qed.

Lemma positionOf_state r s : (positionOf r s).2 = s.
Proof.
  destruct (decide (r ∈ heapArr s)).
  - by rewrite positionOf_present.
  - by rewrite positionOf_absent.
Qed.

Lemma at_state v s : (at_ v s).2 = s.
Proof.
  unfold at_, isNumber. destruct v; try done. run_monad.
  repeat case_decide; try done. by destruct (get _ _).
Qed.

Lemma forEach_loop_spec body l s :
  inert body →
  l ⊆ heapArr s →
  forEach_loop body l s =
    (Normal ((λ x, (findIndex (heapArr s) x + 1, element (item_of (objects s) x))) <$> l), s).
Proof.
  intros Hbody. induction l as [|x l IH]; intros Hl; [done|].
  simpl. unfold bind at 1. rewrite positionOf_present.
  2:{ apply Hl. by left. }
  run_monad. rewrite Hbody. rewrite IH; [done|].
  intros y Hy. apply Hl. by right.
Qed.

Lemma observer_inert : inert observer.
Proof. done. Qed.

Lemma insert_desc_Permutation mem x l : insert_desc mem x l ≡ₚ x :: l.
Proof.
  induction l as [|y l IH]; simpl; [done|].
  case_decide; [done|]. by rewrite IH, Permutation_swap.
Qed.

Lemma sort_desc_Permutation mem l : sort_desc mem l ≡ₚ l.
Proof.
  induction l as [|x l IH]; simpl; [done|].
  by rewrite insert_desc_Permutation, IH.
Qed.

Lemma forEach_state f s : (forEach f observer s).2 = s.
Proof.
  unfold forEach. destruct (callable f); simpl; [|done].
  run_monad. rewrite forEach_loop_spec; [done|apply observer_inert|].
  intros x. by rewrite sort_desc_Permutation.
Qed.

(** ** Every call has one of the listed effects *)

Lemma run_effect c s : effect s c (run c s).
Proof.
  destruct c as [e p| | | | |p|r|r v|r|v| |f|]; simpl; try apply effect_none.
  - destruct p as [| | |z| | | |]; try apply effect_none.
    destruct (add_spec e z s) as (arr & m & -> & Hperm & _). simpl.
    by apply effect_add.
  - destruct (heapArr s) as [|root rest] eqn:Harr.
    + rewrite next_empty by done. apply effect_none.
    + destruct (next_nonempty s root rest Harr) as (arr & m & -> & Hperm & _).
      simpl. by eapply effect_next.
  - rewrite at_state. apply effect_none.
  - rewrite positionOf_state. apply effect_none.
  - destruct v as [| | |z| | | |]; try apply effect_none.
    destruct (decide (r ∈ references s)) as [Hr|Hr].
    + destruct (changePriority_member r z s Hr) as (c & arr & m & -> & _ & Hperm & _).
      simpl. by apply effect_change.
    + rewrite changePriority_not_member by done. apply effect_none.
  - destruct (decide (r ∈ deletedElements s)) as [Hd|Hd].
    { rewrite removeByRef_deleted by done. apply effect_none. }
    destruct (decide (r ∈ heapArr s)) as [Hr|Hr].
    + destruct (removeByRef_present r s Hd Hr) as [m ->]. simpl.
      apply effect_remove; auto.
    + rewrite removeByRef_unknown by done. apply effect_none.
  - destruct (removeByPosition_cases v s)
      as [[e ->]|[->|(p & item & b & s' & -> & Hitem & Hrm & ->)]];
      simpl; try apply effect_none.
    destruct (decide (item ∈ deletedElements s)) as [Hd|Hd].
    { rewrite removeByRef_deleted in Hrm by done. simplify_eq. apply effect_none. }
    destruct (removeByRef_present item s Hd) as [m Hm].
    { by eapply get_elem_of. }
    rewrite Hm in Hrm. simplify_eq.
    apply effect_remove; [right; eauto|done|by eapply get_elem_of].
  - apply effect_clear.
  - rewrite forEach_state. apply effect_none.
Qed.

(** ** Invariants of the histories *)

Lemma findIndex_lookup (arr : list ref) r :
  r ∈ arr → arr !! Z.to_nat (findIndex arr r) = Some r.
Proof.
  intros Hr. pose proof (findIndex_get arr r Hr) as Hget.
  pose proof (get_Some_range _ _ _ Hget).
  unfold get in Hget. by rewrite decide_True in Hget by lia.
Qed.

Lemma length_write_priority mem r p : length (write_priority mem r p) = length mem.
Proof. apply length_insert. Qed.

Lemma run_objects_length c s :
  (length (objects s) ≤ length (objects (run c s)))%nat.
Proof.
  destruct (run_effect c s); simpl; try done.
  - rewrite length_app. simpl. lia.
  - by rewrite length_write_priority.
Qed.

(** A call keeps no identity that was not kept before, except the object
    [add] has just created. *)
Lemma run_stores c s r :
  stores (run c s) r →
  stores s r ∨ (r = length (objects s) ∧ (r < length (objects (run c s)))%nat).
Proof.
  unfold stores. destruct (run_effect c s) as [| e z arr m Hperm
    | root rest arr m Hroot Hperm | r' z arr m Hr' Hperm | c r' m Hc Hd Hr' |];
    simpl; try tauto.
  - rewrite Hperm, elem_of_app, list_elem_of_singleton, elem_of_union,
      elem_of_singleton, length_app. simpl.
    intros [[?| ->]|[[->|?]|?]]; auto; right; (split; [done|lia]).
  - rewrite Hperm, elem_of_difference, elem_of_union, elem_of_singleton.
    intros [Hin|[[? _]|[->|?]]]; auto.
    + left; left. by apply pop_into_root_subseteq.
    + left; left. rewrite Hroot. by left.
  - rewrite Hperm. tauto.
  - rewrite elem_of_union, elem_of_singleton.
    intros [Hin%list_elem_of_delete_inv|[?|[->|?]]]; auto.
  - rewrite elem_of_nil, !elem_of_empty. tauto.
Qed.

Lemma run_well_formed c s : well_formed s → well_formed (run c s).
Proof.
  intros [Hnd Halloc]. split.
  - destruct (run_effect c s) as [| e z arr m Hperm
      | root rest arr m Hroot Hperm | r' z arr m Hr' Hperm | c r' m Hc Hd Hr' |];
      simpl; try done.
    + rewrite Hperm. apply NoDup_app. split_and!; [done| |apply NoDup_singleton].
      intros x Hx ->%list_elem_of_singleton.
      assert (length (objects s) < length (objects s))%nat; [|lia].
      apply Halloc. by left.
    + rewrite Hperm. by apply pop_into_root_NoDup.
    + by rewrite Hperm.
    + eapply sublist_NoDup; [done|]. apply sublist_delete.
    + apply NoDup_nil_2.
  - intros r [Hr|[_ ?]]%run_stores; [|done].
    pose proof (run_objects_length c s). specialize (Halloc r Hr). lia.
Qed.

Lemma run_all_snoc cs c s : run_all (cs ++ [c]) s = run c (run_all cs s).
Proof. unfold run_all. by rewrite foldl_app. Qed.

Lemma run_all_cons c cs s : run_all (c :: cs) s = run_all cs (run c s).
Proof. done. Qed.

Lemma run_all_well_formed cs s : well_formed s → well_formed (run_all cs s).
Proof.
  revert s. induction cs as [|c cs IH]; intros s Hs; [done|].
  rewrite run_all_cons. by apply IH, run_well_formed.
Qed.

Lemma new_queue_well_formed : well_formed new_queue.
Proof.
  split; [apply NoDup_nil_2|].
  intros r [H|[H|H]]; simpl in H.
  - by apply elem_of_nil in H.
  - by apply elem_of_empty in H.
  - by apply elem_of_empty in H.
Qed.

Lemma reachable_well_formed s : reachable s → well_formed s.
Proof.
  intros [cs <-]. apply run_all_well_formed, new_queue_well_formed.
Qed.

(** Every identity the queue keeps is an object [add] has created. *)
Lemma reachable_allocated s r :
  reachable s → stores s r → is_Some (objects s !! r).
Proof.
  intros [_ Halloc]%reachable_well_formed Hr.
  by apply lookup_lt_is_Some, Halloc.
Qed.

Lemma reachable_run c s : reachable s → reachable (run c s).
Proof. intros [cs <-]. exists (cs ++ [c]). apply run_all_snoc. Qed.

Lemma reachable_run_all cs s : reachable s → reachable (run_all cs s).
Proof.
  revert s. induction cs as [|c cs IH]; intros s Hs; [done|].
  rewrite run_all_cons. by apply IH, reachable_run.
Qed.

(** ** Heap ordering across [add], [next] and [changePriority] *)

Lemma get_app_l (arr l : list ref) i x :
  get (arr ++ l) i = Some x → i < Z.of_nat (length arr) → get arr i = Some x.
Proof.
  unfold get. case_decide; [|done]. intros Hget Hlt.
  by rewrite lookup_app_l in Hget by lia.
Qed.

Lemma prio_app mem l r : (r < length mem)%nat → prio (mem ++ l) r = prio mem r.
Proof. intros Hr. unfold prio, item_of. by rewrite lookup_app_l. Qed.

Lemma append_up_inv mem arr it :
  (∀ r, r ∈ arr → (r < length mem)%nat) →
  heap_ordered_on mem arr →
  up_inv (mem ++ [it]) (arr ++ [length mem]) (Z.of_nat (length arr)).
Proof.
  intros Halloc H. split.
  - intros i j x y Hc Hj Hx Hy.
    pose proof (get_Some_range _ _ _ Hx) as Hi.
    pose proof (get_Some_range _ _ _ Hy) as Hj'.
    rewrite length_app in Hi, Hj'. simpl in *.
    apply get_app_l in Hx; [|layout]. apply get_app_l in Hy; [|lia].
    rewrite !prio_app by eauto using get_elem_of. by eapply H.
  - intros g c x y _ Hc _ Hy. apply get_Some_range in Hy.
    rewrite length_app in Hy. simpl in Hy. layout.
Qed.

Lemma add_heap_ordered e p s :
  well_formed s → heap_ordered s → heap_ordered (add e p s).2.
Proof.
  intros [_ Halloc] H. destruct p as [| | |z| | | |]; try done.
  destruct (add_spec e z s) as (arr & m & -> & _ & Hheap). simpl.
  apply Hheap, append_up_inv; [|done].
  intros r Hr. apply Halloc. by left.
Qed.

Lemma next_heap_ordered s : heap_ordered s → heap_ordered (next s).2.
Proof.
  intros H. destruct (heapArr s) as [|root rest] eqn:Harr.
  - by rewrite next_empty.
  - destruct (next_nonempty s root rest Harr) as (arr & m & -> & _ & Hheap).
    by apply Hheap.
Qed.

Lemma changePriority_heap_ordered r p s :
  well_formed s → heap_ordered s → heap_ordered (changePriority r p s).2.
Proof.
  intros [Hnd _] H. destruct p as [| | |z| | | |]; try done.
  destruct (decide (r ∈ references s)) as [Hr|Hr].
  - destruct (changePriority_member r z s Hr) as (c & arr & m & -> & _ & _ & _ & Hheap).
    by apply Hheap.
  - by rewrite changePriority_not_member.
Qed.

Lemma new_queue_heap_ordered : heap_ordered new_queue.
Proof. intros i j x y _ Hx. by apply get_Some_range in Hx. Qed.

(** ** Entries that stay, entries that have left *)

Lemma run_keeps_entry r c s :
  ¬ takes_out r c s → r ∈ heapArr s → r ∈ heapArr (run c s).
Proof.
  intros Hkeep Hin. destruct (run_effect c s) as [| e z arr m Hperm
    | root rest arr m Hroot Hperm | r' z arr m Hr' Hperm | c r' m Hc Hd Hr' |];
    simpl in *; try done.
  - rewrite Hperm, elem_of_app. by left.
  - rewrite Hperm. eapply pop_into_root_elem_of; [done| |done].
    intros ->. apply Hkeep. by rewrite Hroot.
  - by rewrite Hperm.
  - assert (r' ≠ r) as Hne.
    { intros ->. destruct Hc as [->|(p & -> & Hp)]; by apply Hkeep. }
    pose proof (delete_Permutation _ _ _ (findIndex_lookup _ _ Hr')) as Hperm.
    rewrite Hperm, elem_of_cons in Hin. by destruct Hin as [->|].
Qed.

Lemma run_keeps_undeleted r c s :
  ¬ takes_out r c s → r ∉ deletedElements s → r ∉ deletedElements (run c s).
Proof.
  intros Hkeep Hd. destruct (run_effect c s) as [| e z arr m Hperm
    | root rest arr m Hroot Hperm | r' z arr m Hr' Hperm | c r' m Hc Hd' Hr' |];
    simpl in *; try done.
  - rewrite elem_of_union, elem_of_singleton. intros [->|?]; [|done].
    apply Hkeep. by rewrite Hroot.
  - rewrite elem_of_union, elem_of_singleton. intros [->|?]; [|done].
    destruct Hc as [->|(p & -> & Hp)]; by apply Hkeep.
Qed.

Lemma kept_entry r cs s :
  kept r cs s → r ∈ heapArr s → r ∉ deletedElements s →
  r ∈ heapArr (run_all cs s) ∧ r ∉ deletedElements (run_all cs s).
Proof.
  revert s. induction cs as [|c cs IH]; intros s Hk Hin Hd; [done|].
  destruct Hk as [Hc Hk]. rewrite run_all_cons.
  apply IH; [done|by apply run_keeps_entry|by apply run_keeps_undeleted].
Qed.

Lemma kept_in_heapArr r cs s :
  kept r cs s → r ∈ heapArr s → r ∈ heapArr (run_all cs s).
Proof.
  revert s. induction cs as [|c cs IH]; intros s Hk Hin; [done|].
  destruct Hk as [Hc Hk]. rewrite run_all_cons.
  apply IH; [done|by apply run_keeps_entry].
Qed.

Lemma run_stays_deleted r c s :
  c ≠ Clear → r ∈ deletedElements s → r ∈ deletedElements (run c s).
Proof.
  intros Hc Hd. destruct (run_effect c s); simpl; try done.
  - rewrite elem_of_union. by right.
  - rewrite elem_of_union. by right.
Qed.

Lemma run_all_stays_deleted r cs s :
  Clear ∉ cs → r ∈ deletedElements s → r ∈ deletedElements (run_all cs s).
Proof.
  revert s. induction cs as [|c cs IH]; intros s Hcs Hd; [done|].
  rewrite run_all_cons. apply not_elem_of_cons in Hcs as [Hc Hcs].
  apply IH; [done|]. by apply run_stays_deleted.
Qed.

(** After [add], the new object is in storage and nowhere else. *)
Lemma add_new_entry e z s :
  (add e (JNum z) s).1 = Normal (length (objects s)) ∧
  length (objects s) ∈ heapArr (add e (JNum z) s).2 ∧
  deletedElements (add e (JNum z) s).2 = deletedElements s.
Proof.
  destruct (add_spec e z s) as (arr & m & -> & Hperm & _). simpl.
  split_and!; [done| |done].
  rewrite Hperm, elem_of_app, list_elem_of_singleton. by right.
Qed.

Transparent bubbleUp bubbleDown increasePriority decreasePriority.

(** ** The model against the assertions of the source file *)

Example script_assertions :
  let s2 := run_all (take 2 script) new_queue in
  let s4 := run_all (take 4 script) new_queue in
  let s8 := run_all (take 8 script) new_queue in
  let s9 := run_all (take 9 script) new_queue in
  let s12 := run_all script new_queue in
  length_ new_queue = 0 ∧
  front s2 = JStr "But I have higher priority!" ∧
  stats s2 !! 2 = Some (Count 1) ∧
  (changePriority 0%nat (JNum 3) s2).1 = Normal 1 ∧
  (next (run_all (take 3 script) new_queue)).1 = Normal (JStr "I came here first!") ∧
  length_ s4 = 1 ∧
  (at_ (JNum 2) s8).1 = Normal (Some (1%nat, JStr "But I have higher priority!")) ∧
  (at_ (JNum 17) s8).1 = Normal None ∧
  (positionOf 5%nat s8).1 = Normal 5 ∧
  (removeByRef 4%nat s8).1 = Normal true ∧
  (positionOf 5%nat s9).1 = Normal 4 ∧
  totalProcessed s9 = 6 ∧ length_ s9 = 4 ∧
  (removeByPosition (JNum 4) s9).1 = Normal true ∧
  (removeByPosition (JNum 4) (removeByPosition (JNum 4) s9).2).1 = Normal false ∧
  front s12 = JStr "objEl" ∧
  (forEach (JFun "log") observer s12).1 =
    Normal [(1, JStr "objEl"); (3, JFun "fnEl"); (2, JStr "But I have higher priority!")] ∧
  length_ (clear s12).2 = 0 ∧ totalProcessed (clear s12).2 = 6.
Proof. vm_compute. repeat split. Qed.

(** ** No method is ever stuck *)

Lemma never_stuck s :
  (∀ e p, (add e p s).1 ≠ Stuck) ∧
  (next s).1 ≠ Stuck ∧
  (∀ p, (at_ p s).1 ≠ Stuck) ∧
  (∀ r, (positionOf r s).1 ≠ Stuck) ∧
  (∀ r p, (changePriority r p s).1 ≠ Stuck) ∧
  (∀ r, (removeByRef r s).1 ≠ Stuck) ∧
  (∀ p, (removeByPosition p s).1 ≠ Stuck) ∧
  (clear s).1 ≠ Stuck ∧
  (∀ f body, (∀ pos el s', (body pos el s').1 ≠ Stuck) →
             (forEach f body s).1 ≠ Stuck).
Proof.
  split_and!.
  - intros e p. destruct p as [| | |z| | | |]; try done.
    by destruct (add_spec e z s) as (arr & m & -> & _).
  - destruct (heapArr s) as [|root rest] eqn:Harr.
    + by rewrite next_empty.
    + by destruct (next_nonempty s root rest Harr) as (arr & m & -> & _).
  - intros p. unfold at_, isNumber. destruct p; try done. run_monad.
    repeat case_decide; try done. by destruct (get _ _).
  - intros r. destruct (decide (r ∈ heapArr s)).
    + by rewrite positionOf_present.
    + by rewrite positionOf_absent.
  - intros r p. destruct p as [| | |z| | | |]; try done.
    destruct (decide (r ∈ references s)) as [Hr|Hr].
    + by destruct (changePriority_member r z s Hr) as (c & arr & m & -> & ? & _).
    + by rewrite changePriority_not_member.
  - intros r. destruct (decide (r ∈ deletedElements s)) as [Hd|Hd].
    { by rewrite removeByRef_deleted. }
    destruct (decide (r ∈ heapArr s)) as [Hr|Hr].
    + by destruct (removeByRef_present r s Hd Hr) as [m ->].
    + by rewrite removeByRef_unknown.
  - intros p. by destruct (removeByPosition_cases p s)
      as [[e ->]|[->|(z & item & b & s' & _ & _ & _ & ->)]].
  - done.
  - intros f body Hbody. unfold forEach. destruct (callable f); simpl; [|done].
    unfold bind at 1. unfold gets at 1.
    generalize (sort_desc (objects s) (heapArr s)). intros l.
    generalize s. induction l as [|x l IH]; intros s0; [done|].
    simpl. unfold bind at 1.
    destruct (positionOf x s0) as [[k|e|] s1] eqn:Hpos; [|done|].
    + rewrite (surjective_pairing (positionOf x s0)) in Hpos.
      rewrite positionOf_state in Hpos. injection Hpos as _ <-.
      run_monad. specialize (Hbody k (element (item_of (objects s0) x)) s0).
      destruct (body k _ s0) as [[[]|e|] s2]; [|done..].
      specialize (IH s2). by destruct (forEach_loop body l s2) as [[calls|e|] s3].
    + destruct (decide (x ∈ heapArr s0)).
      * by rewrite positionOf_present in Hpos.
      * by rewrite positionOf_absent in Hpos.
Qed.

(** ** Heap ordering (C1) *)

Lemma heap_orderedb_sound mem arr :
  heap_orderedb mem arr = true → heap_ordered_on mem arr.
Proof.
  unfold heap_orderedb. rewrite forallb_forall.
  intros Hall i j x y Hc Hx Hy.
  pose proof (get_Some_range _ _ _ Hx). pose proof (get_Some_range _ _ _ Hy).
  assert ((j - 1) `div` 2 = i) as Hi.
  { unfold child_of in Hc. destruct Hc as [-> | ->].
    - replace (2 * i + 1 - 1) with (i * 2) by lia. by rewrite Z.div_mul.
    - replace (2 * i + 2 - 1) with (1 + i * 2) by lia.
      by rewrite Z.div_add. }
  assert (j ∈ Z.of_nat <$> seq 1 (length arr - 1)) as Hin.
  { apply list_elem_of_fmap. exists (Z.to_nat j). split; [lia|].
    apply list_elem_of_In, in_seq. layout. }
  apply list_elem_of_In in Hin. specialize (Hall j Hin).
  rewrite Hi, Hx, Hy in Hall. by apply bool_decide_eq_true in Hall.
Qed.

Lemma one_entry_reachable : reachable one_entry.
Proof. by exists [Add (JStr "x") (JNum 1)]. Qed.

Lemma three_entries_reachable : reachable three_entries.
Proof. unfold three_entries. eexists. reflexivity. Qed.

(** [add], [next] and [changePriority] preserve the ordering: from a state
    the methods can reach in which no child outranks its parent, the state
    each of the three leaves behind, whether it returns or throws, is
    ordered again. *)
Lemma heap_order_preserved s :
  reachable s → heap_ordered s →
  (∀ e p, heap_ordered (add e p s).2) ∧
  heap_ordered (next s).2 ∧
  (∀ r p, heap_ordered (changePriority r p s).2).
Proof.
  intros Hwf%reachable_well_formed H. split_and!.
  - intros e p. by apply add_heap_ordered.
  - by apply next_heap_ordered.
  - intros r p. by apply changePriority_heap_ordered.
Qed.

Example heap_order_preserved_three_entries :
  heap_ordered (add (JStr "d") (JNum 5) three_entries).2 ∧
  heap_ordered (next three_entries).2 ∧
  heap_ordered (changePriority 1%nat (JNum 9) three_entries).2.
Proof.
  assert (heap_ordered three_entries) as Ho
    by (apply heap_orderedb_sound; vm_compute; reflexivity).
  pose proof (heap_order_preserved three_entries three_entries_reachable Ho)
    as (Ha & Hn & Hc).
  split_and!; [apply Ha|exact Hn|apply Hc].
Qed.

(** C1 (the code at the failing input): in the queue stored as priorities
    [3; 1; 2] the ordering holds; [removeByRef] of the root entry splices
    the array and sifts nothing, leaving [1; 2], a parent below its child.
    [next] then dequeues the entry of priority 1 while the entry of
    priority 2 waits. *)
Theorem removeByRef_breaks_heap_order :
  let s := (removeByRef 0%nat three_entries).2 in
  reachable three_entries ∧ heap_ordered three_entries ∧
  (removeByRef 0%nat three_entries).1 = Normal true ∧
  (prio (objects s) <$> heapArr s) = [1; 2] ∧
  ¬ heap_ordered s ∧
  (next s).1 = Normal (JStr "b") ∧
  front (next s).2 = JStr "c".
Proof.
  split_and!.
  - apply three_entries_reachable.
  - by apply heap_orderedb_sound.
  - done.
  - done.
  - intros H. by specialize (H 0 1 1%nat 2%nat (or_introl eq_refl) eq_refl eq_refl).
  - done.
  - done.
Qed.

(** ** [next] (C2) *)

(** On an empty queue [next] returns [null] and changes nothing. *)
Lemma next_empty_null s :
  heapArr s = [] → next s = (Normal JNull, s).
Proof. apply next_empty. Qed.

(** On a non-empty queue [next] returns the element at the root. *)
Lemma next_returns_front s :
  heapArr s ≠ [] → (next s).1 = Normal (front s).
Proof.
  intros Hne. unfold front. destruct (heapArr s) as [|root rest] eqn:Harr; [done|].
  by destruct (next_nonempty s root rest Harr) as (arr & m & -> & _).
Qed.

(** With two entries or more, the root leaves and the size drops by one. *)
Lemma next_shrinks s root rest :
  heapArr s = root :: rest → rest ≠ [] → NoDup (heapArr s) →
  length_ (next s).2 = length_ s - 1 ∧ root ∉ heapArr (next s).2.
Proof.
  intros Harr Hrest Hnd.
  destruct (next_nonempty s root rest Harr) as (arr & m & -> & Hperm & _).
  unfold length_. simpl. rewrite Hperm, Harr in *.
  destruct (nonempty_shape root rest) as [->|(mid & popped & ->)]; [done|].
  rewrite pop_into_root_snoc. simpl. rewrite length_app. simpl.
  split; [lia|].
  apply NoDup_cons in Hnd as [Hroot _].
  rewrite elem_of_cons. rewrite elem_of_app, list_elem_of_singleton in Hroot.
  tauto.
Qed.

(** C2 (the code at the failing input): with a single entry, [next] returns
    the element, yet [this.heapArr[0] = this.heapArr.pop()] stores the popped
    root back into slot 0: the entry stays in storage, the size stays 1, and
    the next call of [next] returns the same element again. *)
Theorem next_single_entry_stays :
  length_ one_entry = 1 ∧
  (next one_entry).1 = Normal (JStr "x") ∧
  heapArr (next one_entry).2 = heapArr one_entry ∧
  length_ (next one_entry).2 = 1 ∧
  (next (next one_entry).2).1 = Normal (JStr "x").
Proof. vm_compute. by split_and!. Qed.

(** ** The histogram (C3) *)

(** C3 (the code at the failing input): after [add] and [next] on a new
    queue the histogram is empty, so its counts sum to 0, while the size is
    1; one more [next] stores [NaN] as the count of that priority. *)
Theorem histogram_after_single_next :
  let s := (next one_entry).2 in
  histogram_total (stats s) = Some 0 ∧ length_ s = 1 ∧
  stats (next s).2 !! 1 = Some NaN.
Proof. vm_compute. by split_and!. Qed.

(** ** [changePriority] (C4) *)

(** On a reference that is a member of [references] and sits in storage,
    [changePriority] returns its new 1-based rank. *)
Lemma changePriority_live r z s :
  r ∈ references s → r ∈ heapArr s →
  ∃ k, (changePriority r (JNum z) s).1 = Normal k ∧
       get (heapArr (changePriority r (JNum z) s).2) (k - 1) = Some r.
Proof.
  intros Hr Hin.
  destruct (changePriority_member r z s Hr) as (c & arr & m & -> & _ & Hperm & Hc & _).
  simpl. rewrite (Hc Hin). eexists. split; [done|].
  replace (findIndex arr r + 1 - 1) with (findIndex arr r) by lia.
  apply findIndex_get. by rewrite Hperm.
Qed.

(** A reference dequeued by [next] is rejected. *)
Lemma changePriority_after_next s root rest z :
  heapArr s = root :: rest →
  (changePriority root (JNum z) (next s).2).1 = Throw ReferenceError.
Proof.
  intros Harr.
  destruct (next_nonempty s root rest Harr) as (arr & m & -> & _).
  rewrite changePriority_not_member; [done|]. simpl.
  rewrite elem_of_difference, elem_of_singleton. tauto.
Qed.

(** C4 (the code at the failing input): [removeByRef] leaves the reference
    in [references], so on a removed reference [changePriority] passes its
    guard: with the priority unchanged it returns 0, with another priority
    it throws a [TypeError] out of the sift at index -1. *)
Theorem changePriority_after_removeByRef :
  let s := (removeByRef 0%nat one_entry).2 in
  (removeByRef 0%nat one_entry).1 = Normal true ∧
  heapArr s = [] ∧
  (changePriority 0%nat (JNum 1) s).1 = Normal 0 ∧
  (changePriority 0%nat (JNum 5) s).1 = Throw TypeError ∧
  (changePriority 0%nat (JNum 0) s).1 = Throw TypeError.
Proof. vm_compute. by split_and!. Qed.

(** ** [positionOf] (C5) *)

(** [positionOf] never returns -1: it returns a rank from 1 on, or throws. *)
Lemma positionOf_rank r s k s' :
  positionOf r s = (Normal k, s') → 1 ≤ k ≤ length_ s ∧ get (heapArr s) (k - 1) = Some r.
Proof.
  destruct (decide (r ∈ heapArr s)) as [Hr|Hr].
  - rewrite positionOf_present by done. intros; simplify_eq.
    pose proof (findIndex_get _ _ Hr) as Hget.
    pose proof (get_Some_range _ _ _ Hget).
    replace (findIndex (heapArr s') r + 1 - 1) with (findIndex (heapArr s') r) by lia.
    unfold length_. split; [lia|done].
  - by rewrite positionOf_absent.
Qed.

(** A reference no [add] of this queue has created is rejected. *)
Lemma positionOf_never_issued r s :
  reachable s → (length (objects s) ≤ r)%nat →
  positionOf r s = (Throw ReferenceError, s).
Proof.
  intros [_ Halloc]%reachable_well_formed Hr. apply positionOf_absent.
  intros Hin. assert (r < length (objects s))%nat; [|lia].
  apply Halloc. by left.
Qed.

(** C5 (the code at the failing input): for a reference removed by
    [removeByRef], [positionOf] throws a [ReferenceError]; the documented
    result is -1. *)
Theorem positionOf_after_removeByRef :
  let s := (removeByRef 0%nat one_entry).2 in
  (removeByRef 0%nat one_entry).1 = Normal true ∧
  positionOf 0%nat s = (Throw ReferenceError, s).
Proof.
  intros s. split; [by vm_compute|]. apply positionOf_absent.
  assert (heapArr s = []) as -> by (by vm_compute). apply not_elem_of_nil.
Qed.

(** ** Repeated removal (C6) *)

(** C6 (the code at the failing input): the reference is issued by [add]
    and the first [removeByRef] returns [true]; a second one returns
    [false]; but [clear] empties [deletedElements], and the [removeByRef]
    after it throws a [ReferenceError] on this reference, which did exist
    and was removed earlier. *)
Lemma removeByRef_after_clear_throws :
  let s1 := (removeByRef 0%nat one_entry).2 in
  let s2 := (clear s1).2 in
  reachable one_entry ∧
  (removeByRef 0%nat one_entry).1 = Normal true ∧
  (removeByRef 0%nat s1).1 = Normal false ∧
  (removeByRef 0%nat s2).1 = Throw ReferenceError.
Proof. split_and!; [apply one_entry_reachable|by vm_compute..]. Qed.

(** Without a [clear] in between, removal is answered as documented: for
    the reference [r] that [add] returns, after any calls of which none has
    taken the entry out ([next] with [r] at the root counts as taking it
    out), [removeByRef r] returns [true]; after that removal, or after a
    [next] with [r] at the root, every later [removeByRef r] returns [false]
    and changes nothing, as long as no [clear] is called. *)
Lemma removeByRef_true_then_false s e z cs :
  reachable s →
  let r := length (objects s) in
  let s1 := run_all cs (add e (JNum z) s).2 in
  kept r cs (add e (JNum z) s).2 →
  (add e (JNum z) s).1 = Normal r ∧
  (removeByRef r s1).1 = Normal true ∧
  (∀ cs', Clear ∉ cs' →
     removeByRef r (run_all cs' (removeByRef r s1).2) =
       (Normal false, run_all cs' (removeByRef r s1).2)) ∧
  (head (heapArr s1) = Some r →
   ∀ cs', Clear ∉ cs' →
     removeByRef r (run_all cs' (next s1).2) =
       (Normal false, run_all cs' (next s1).2)).
Proof.
  intros [_ Halloc]%reachable_well_formed r s1 Hkept.
  destruct (add_new_entry e z s) as (Hadd & Hin & Hdel).
  assert (r ∉ deletedElements (add e (JNum z) s).2) as Hnd.
  { rewrite Hdel. intros Hd.
    assert (r < length (objects s))%nat; [|subst r; lia].
    apply Halloc. by right; right. }
  destruct (kept_entry r cs _ Hkept Hin Hnd) as [Hin1 Hnd1].
  fold s1 in Hin1, Hnd1.
  split_and!; [done| | |].
  - by destruct (removeByRef_present r s1 Hnd1 Hin1) as [m ->].
  - intros cs' Hcs'. apply removeByRef_deleted, run_all_stays_deleted; [done|].
    destruct (removeByRef_present r s1 Hnd1 Hin1) as [m ->]. simpl.
    apply elem_of_union. left. by apply elem_of_singleton.
  - intros Hhead cs' Hcs'.
    apply removeByRef_deleted, run_all_stays_deleted; [done|].
    destruct (heapArr s1) as [|root rest] eqn:Harr; simplify_eq/=.
    destruct (next_nonempty s1 r rest Harr) as (arr & m & -> & _). simpl.
    apply elem_of_union. left. by apply elem_of_singleton.
Qed.

Example removeByRef_true_then_false_example :
  let s1 := run_all [Add (JStr "y") (JNum 4); ChangePriority 0%nat (JNum 0)]
              (add (JStr "x") (JNum 1) new_queue).2 in
  (removeByRef 0%nat s1).1 = Normal true ∧
  removeByRef 0%nat (run_all [Next; Add (JStr "z") (JNum 2)] (removeByRef 0%nat s1).2) =
    (Normal false, run_all [Next; Add (JStr "z") (JNum 2)] (removeByRef 0%nat s1).2).
Proof.
  assert (reachable new_queue) as Hr by (by exists []).
  assert (kept 0%nat [Add (JStr "y") (JNum 4); ChangePriority 0%nat (JNum 0)]
            (add (JStr "x") (JNum 1) new_queue).2) as Hk
    by (simpl; tauto).
  pose proof (removeByRef_true_then_false new_queue (JStr "x") 1
                [Add (JStr "y") (JNum 4); ChangePriority 0%nat (JNum 0)] Hr Hk)
    as (_ & Htrue & Hfalse & _).
  split; [exact Htrue|].
  apply Hfalse. rewrite !not_elem_of_cons. split_and!; [done..|apply not_elem_of_nil].
Defined.

(** ** Reference stability (C7) *)

(** C7: for the reference [r] that [add] returns, after any calls among which
    none takes the entry out ([next] with [r] at the root, [removeByRef r],
    [removeByPosition] at the position of [r], [clear]), [positionOf r]
    returns a rank [k] with [1 ≤ k ≤ length], and [at(k).ref] is [r]. *)
Theorem reference_stability s e p r s1 cs :
  add e p s = (Normal r, s1) →
  kept r cs s1 →
  ∃ k v,
    positionOf r (run_all cs s1) = (Normal k, run_all cs s1) ∧
    1 ≤ k ≤ length_ (run_all cs s1) ∧
    at_ (JNum k) (run_all cs s1) = (Normal (Some (r, v)), run_all cs s1).
Proof.
  intros Hadd Hkept.
  assert (r ∈ heapArr s1) as Hin.
  { destruct p as [| | |z| | | |]; try done.
    destruct (add_new_entry e z s) as (H1 & H2 & _).
    rewrite Hadd in H1, H2. simpl in *. by simplify_eq. }
  pose proof (kept_in_heapArr r cs s1 Hkept Hin) as Hin2.
  set (s2 := run_all cs s1) in *.
  pose proof (positionOf_present r s2 Hin2) as Hpos.
  destruct (positionOf_rank r s2 _ _ Hpos) as [Hk Hget].
  eexists _, _. split_and!; [exact Hpos|lia..|].
  unfold at_, isNumber. run_monad.
  rewrite decide_False by lia. unfold length_ in Hk.
  rewrite decide_False by lia. by rewrite Hget.
Qed.

Lemma reference_stability_witness :
  let s := run_all (take 7 script) new_queue in
  let s1 := (add (JStr "objEl") (JNum (-12)) s).2 in
  let cs := [RemoveByRef 4%nat; RemoveByPosition (JNum 3);
             ChangePriority 1%nat (JNum 50); Next] in
  ∃ k v,
    positionOf 5%nat (run_all cs s1) = (Normal k, run_all cs s1) ∧
    1 ≤ k ≤ length_ (run_all cs s1) ∧
    at_ (JNum k) (run_all cs s1) = (Normal (Some (5%nat, v)), run_all cs s1).
Proof.
  intros s s1 cs.
  apply (reference_stability s (JStr "objEl") (JNum (-12)) 5%nat s1 cs).
  - vm_compute. reflexivity.
  - vm_compute. repeat split; intros H; first [discriminate H|exact H].
Defined.

(** ** The counter of insertions (C8) *)

(** C8: no call, and so no history of calls, decreases [totalProcessed],
    and [clear] returns with the counter unchanged and the size 0. *)
Theorem totalProcessed_monotone :
  (∀ c s, totalProcessed s ≤ totalProcessed (run c s)) ∧
  (∀ cs s, totalProcessed s ≤ totalProcessed (run_all cs s)) ∧
  (∀ s, (clear s).1 = Normal tt ∧
        totalProcessed (clear s).2 = totalProcessed s ∧
        length_ (clear s).2 = 0).
Proof.
  assert (∀ c s, totalProcessed s ≤ totalProcessed (run c s)) as Hstep.
  { intros c s. unfold totalProcessed.
    destruct (run_effect c s); simpl; lia. }
  split_and!; [done| |done].
  intros cs. induction cs as [|c cs IH]; intros s; [done|].
  rewrite run_all_cons. etrans; [apply (Hstep c)|apply IH].
Qed.

(** ** [forEach] (C9) *)

Lemma insert_desc_sorted mem x l :
  StronglySorted (by_priority_desc mem) l →
  StronglySorted (by_priority_desc mem) (insert_desc mem x l).
Proof.
  induction 1 as [|y l Hl IH Hy]; simpl.
  - by repeat constructor.
  - case_decide as Hxy.
    + constructor; [by constructor|]. constructor; [done|].
      eapply Forall_impl; [exact Hy|]. unfold by_priority_desc. intros; simpl in *. lia.
    + constructor; [done|].
      rewrite insert_desc_Permutation. constructor; [|done].
      unfold by_priority_desc. lia.
Qed.

Lemma sort_desc_sorted mem l : StronglySorted (by_priority_desc mem) (sort_desc mem l).
Proof.
  induction l as [|x l IH]; simpl; [constructor|]. by apply insert_desc_sorted.
Qed.

(** With a value that is not a function [forEach] throws a [TypeError]
    and calls nothing.  With a function that leaves the queue alone it makes
    one call per stored entry, in descending order of priority, on the
    1-based position of the storage slot of the entry, which is what
    [positionOf] returns for it, and on its element; the queue is left as
    it was. *)
Lemma forEach_traversal f body s :
  (callable f = false → forEach f body s = (Throw TypeError, s)) ∧
  (callable f = true → inert body →
   ∃ order calls,
     forEach f body s = (Normal calls, s) ∧
     order ≡ₚ heapArr s ∧
     StronglySorted (by_priority_desc (objects s)) order ∧
     Forall2 (λ x call, get (heapArr s) (call.1 - 1) = Some x ∧
                        positionOf x s = (Normal call.1, s) ∧
                        call.2 = element (item_of (objects s) x))
             order calls).
Proof.
  split; [intros Hf|intros Hf Hbody]; unfold forEach; rewrite Hf; simpl; [done|].
  run_monad.
  assert (sort_desc (objects s) (heapArr s) ⊆ heapArr s) as Hsub.
  { intros x. by rewrite sort_desc_Permutation. }
  rewrite forEach_loop_spec by done.
  eexists _, _. split_and!; [done|apply sort_desc_Permutation|apply sort_desc_sorted|].
  apply Forall2_fmap_r, Forall_Forall2_diag, Forall_forall.
  intros x Hx. simpl.
  pose proof (positionOf_present x s (Hsub x Hx)) as Hpos.
  destruct (positionOf_rank x s _ _ Hpos) as [_ Hget].
  by split_and!.
Qed.

Example forEach_traversal_script :
  let s := run_all script new_queue in
  forEach JNull observer s = (Throw TypeError, s) ∧
  ∃ order calls,
    forEach (JFun "log") observer s = (Normal calls, s) ∧
    order ≡ₚ heapArr s ∧
    StronglySorted (by_priority_desc (objects s)) order ∧
    Forall2 (λ x call, get (heapArr s) (call.1 - 1) = Some x ∧
                       positionOf x s = (Normal call.1, s) ∧
                       call.2 = element (item_of (objects s) x))
            order calls.
Proof.
  intros s.
  destruct (forEach_traversal JNull observer s) as [Hthrow _].
  destruct (forEach_traversal (JFun "log") observer s) as [_ Hcalls].
  split; [by apply Hthrow|]. apply Hcalls; [done|apply observer_inert].
Qed.

(** A function that throws at its first call ends [forEach] with its
    error; the queue is as that call left it and no other call is made. *)
Lemma forEach_callback_throws f body s x rest e s' :
  callable f = true →
  sort_desc (objects s) (heapArr s) = x :: rest →
  body (findIndex (heapArr s) x + 1) (element (item_of (objects s) x)) s =
    (Throw e, s') →
  forEach f body s = (Throw e, s').
Proof.
  intros Hf Hsort Hbody. unfold forEach. rewrite Hf. simpl.
  unfold bind at 1. unfold gets at 1. rewrite Hsort. simpl.
  unfold bind at 1. rewrite positionOf_present.
  2:{ rewrite <- (sort_desc_Permutation (objects s)), Hsort. by left. }
  unfold bind at 1. unfold gets at 1. unfold bind at 1. by rewrite Hbody.
Qed.

(** A function that removes an entry the traversal has not come to yet
    makes the [positionOf] of that entry's turn throw. *)
Example forEach_callback_removes :
  (forEach (JFun "cb") (λ _ _, removeByRef 2%nat ;;; ret tt) three_entries).1 =
    Throw ReferenceError ∧
  heapArr (forEach (JFun "cb") (λ _ _, removeByRef 2%nat ;;; ret tt)
             three_entries).2 = [0; 1]%nat.
Proof. vm_compute. by split. Qed.

(** C9 (the code at the failing input): after [add] and [next] on a new
    queue the entry is dequeued, it is no longer in [references] and it is
    in [deletedElements], yet [next] has left it in storage: [forEach] calls
    its function on it, with position 1.  A value that is not a function is
    rejected with a [TypeError]. *)
Theorem forEach_visits_dequeued_entry :
  let s := (next one_entry).2 in
  (next one_entry).1 = Normal (JStr "x") ∧
  bool_decide (0%nat ∈ references s) = false ∧
  bool_decide (0%nat ∈ deletedElements s) = true ∧
  forEach (JFun "cb") observer s = (Normal [(1, JStr "x")], s) ∧
  forEach JNull observer s = (Throw TypeError, s).
Proof. vm_compute. by split_and!. Qed.

(** ** References after [clear] (C10) *)

(** The identities a state keeps all date from after the [n]-th object. *)
Lemma run_all_stores_from n cs s :
  (n ≤ length (objects s))%nat →
  (∀ r, stores s r → (n ≤ r)%nat) →
  ∀ r, stores (run_all cs s) r → (n ≤ r)%nat.
Proof.
  revert s. induction cs as [|c cs IH]; intros s Hn Hs; [done|].
  rewrite run_all_cons. apply IH.
  - pose proof (run_objects_length c s). lia.
  - intros r [Hr|[-> _]]%run_stores; [by apply Hs|done].
Qed.

(** After [clear], a reference issued before it is in none of [heapArr],
    [references] and [deletedElements], whatever calls follow:
    [positionOf], [changePriority] (with a finite number) and [removeByRef]
    throw a [ReferenceError] on it and change nothing. *)
Lemma references_forgotten_by_clear s r cs z :
  (r < length (objects s))%nat →
  let s' := run_all cs (clear s).2 in
  positionOf r s' = (Throw ReferenceError, s') ∧
  changePriority r (JNum z) s' = (Throw ReferenceError, s') ∧
  removeByRef r s' = (Throw ReferenceError, s').
Proof.
  intros Hr s'.
  assert (¬ stores s' r) as Hno.
  { intros Hst. assert (length (objects s) ≤ r)%nat; [|lia].
    apply (run_all_stores_from _ cs (clear s).2); [done| |done].
    intros x [Hx|[Hx|Hx]]; simpl in Hx.
    - by apply elem_of_nil in Hx.
    - by apply elem_of_empty in Hx.
    - by apply elem_of_empty in Hx. }
  unfold stores in Hno. split_and!.
  - apply positionOf_absent. tauto.
  - apply changePriority_not_member. tauto.
  - apply removeByRef_unknown; tauto.
Qed.

Example references_forgotten_by_clear_example :
  let s := (removeByRef 4%nat (run_all (take 8 script) new_queue)).2 in
  let s' := run_all [Add (JStr "again") (JNum 1); Next] (clear s).2 in
  (removeByRef 4%nat s).1 = Normal false ∧
  (removeByRef 0%nat s).1 = Normal false ∧
  positionOf 4%nat s' = (Throw ReferenceError, s') ∧
  changePriority 0%nat (JNum 2) s' = (Throw ReferenceError, s') ∧
  removeByRef 4%nat s' = (Throw ReferenceError, s').
Proof.
  intros s s'.
  assert (4 < length (objects s))%nat as H4 by (vm_compute; lia).
  assert (0 < length (objects s))%nat as H0 by (vm_compute; lia).
  pose proof (references_forgotten_by_clear s 4%nat
                [Add (JStr "again") (JNum 1); Next] 2 H4) as (Hp & _ & Hr).
  pose proof (references_forgotten_by_clear s 0%nat
                [Add (JStr "again") (JNum 1); Next] 2 H0) as (_ & Hc & _).
  split_and!; [by vm_compute|by vm_compute|exact Hp|exact Hc|exact Hr].
Defined.

(** C10 (the code at the failing input): before any [clear], for a
    reference removed by [removeByRef], [positionOf] throws a
    [ReferenceError] and [changePriority] returns 0, and for a reference
    dequeued by [next] both throw a [ReferenceError]: none of them returns
    -1; only [removeByRef] answers [false].  After [clear] the three methods
    throw a [ReferenceError]. *)
Theorem removed_reference_before_and_after_clear :
  let s := (removeByRef 0%nat one_entry).2 in
  let s' := (next three_entries).2 in
  (removeByRef 0%nat one_entry).1 = Normal true ∧
  (positionOf 0%nat s).1 = Throw ReferenceError ∧
  (changePriority 0%nat (JNum 1) s).1 = Normal 0 ∧
  (removeByRef 0%nat s).1 = Normal false ∧
  (next three_entries).1 = Normal (JStr "a") ∧
  (positionOf 0%nat s').1 = Throw ReferenceError ∧
  (changePriority 0%nat (JNum 3) s').1 = Throw ReferenceError ∧
  (removeByRef 0%nat s').1 = Normal false ∧
  (positionOf 0%nat (clear s).2).1 = Throw ReferenceError ∧
  (changePriority 0%nat (JNum 1) (clear s).2).1 = Throw ReferenceError ∧
  (removeByRef 0%nat (clear s).2).1 = Throw ReferenceError.
Proof. vm_compute. by split_and!. Qed.

(** * Further properties of the methods *)

(** ** Validation of arguments *)

(** X1: a priority or position that is not a finite number makes [add],
    [changePriority], [at] and [removeByPosition] throw a [TypeError]
    before anything is changed; [changePriority] checks it before it looks
    at the reference. *)
Theorem non_numbers_rejected v s :
  (∀ z, v ≠ JNum z) →
  (∀ e, add e v s = (Throw TypeError, s)) ∧
  (∀ r, changePriority r v s = (Throw TypeError, s)) ∧
  at_ v s = (Throw TypeError, s) ∧
  removeByPosition v s = (Throw TypeError, s).
Proof.
  intros Hv. destruct v as [| | |z| | | |]; try done. by destruct (Hv z).
Qed.

Lemma non_numbers_rejected_witness :
  add (JStr "x") JNaN one_entry = (Throw TypeError, one_entry) ∧
  changePriority 0%nat (JInfinity false) one_entry = (Throw TypeError, one_entry) ∧
  at_ (JStr "1") one_entry = (Throw TypeError, one_entry) ∧
  removeByPosition JUndefined one_entry = (Throw TypeError, one_entry).
Proof.
  split_and!.
  - apply (non_numbers_rejected JNaN one_entry). intros z H. discriminate H.
  - apply (non_numbers_rejected (JInfinity false) one_entry). intros z H. discriminate H.
  - apply (non_numbers_rejected (JStr "1") one_entry). intros z H. discriminate H.
  - apply (non_numbers_rejected JUndefined one_entry). intros z H. discriminate H.
Defined.

(** X2: [at] and [removeByPosition] throw a [RangeError] for a position
    that is 0 or negative, and return [null], respectively [false], for a
    position beyond the length; the queue is unchanged in all four cases. *)
Theorem positions_out_of_range p s :
  (p ≤ 0 →
   at_ (JNum p) s = (Throw RangeError, s) ∧
   removeByPosition (JNum p) s = (Throw RangeError, s)) ∧
  (length_ s < p →
   at_ (JNum p) s = (Normal None, s) ∧
   removeByPosition (JNum p) s = (Normal false, s)).
Proof.
  unfold length_, at_, removeByPosition, isNumber. run_monad. split; intros Hp.
  - by rewrite !decide_True by done.
  - rewrite !(decide_False (P := p ≤ 0)) by lia.
    by rewrite !decide_True by done.
Qed.

Lemma positions_out_of_range_witness :
  (at_ (JNum 0) three_entries = (Throw RangeError, three_entries) ∧
   removeByPosition (JNum 0) three_entries = (Throw RangeError, three_entries)) ∧
  (at_ (JNum 4) three_entries = (Normal None, three_entries) ∧
   removeByPosition (JNum 4) three_entries = (Normal false, three_entries)).
Proof.
  split.
  - apply (positions_out_of_range 0 three_entries). lia.
  - apply (positions_out_of_range 4 three_entries). vm_compute. reflexivity.
Defined.

(** ** What [add] returns *)

(** X3: on a state the methods can reach, [add] with a finite priority
    returns a reference the queue did not keep before; the entry is stored
    with the given element and priority, it is in [references] and not in
    [deletedElements], the length and [totalProcessed] grow by one, and the
    entries stored before are all still stored. *)
Theorem add_issues_fresh_reference e z s :
  reachable s →
  ∃ r s',
    add e (JNum z) s = (Normal r, s') ∧
    ¬ stores s r ∧
    r ∈ heapArr s' ∧ r ∈ references s' ∧ (r ∉ deletedElements s') ∧
    item_of (objects s') r = {| element := e; priority := z |} ∧
    length_ s' = length_ s + 1 ∧
    totalProcessed s' = totalProcessed s + 1 ∧
    (∀ r', r' ∈ heapArr s → r' ∈ heapArr s').
Proof.
  intros [_ Halloc]%reachable_well_formed.
  destruct (add_spec e z s) as (arr & m & Hadd & Hperm & _).
  assert (¬ stores s (length (objects s))) as Hfresh.
  { intros H%Halloc. lia. }
  eexists _, _. split; [exact Hadd|]. simpl. split_and!; try done.
  - rewrite Hperm, elem_of_app, list_elem_of_singleton. by right.
  - apply elem_of_union. left. by apply elem_of_singleton.
  - intros Hd. apply Hfresh. by right; right.
  - unfold item_of. by rewrite lookup_app_r, Nat.sub_diag by lia.
  - unfold length_. simpl. rewrite Hperm, length_app. simpl. lia.
  - intros r' Hr'. rewrite Hperm, elem_of_app. by left.
Qed.

Lemma add_issues_fresh_reference_witness :
  ∃ r s',
    add (JStr "d") (JNum 7) three_entries = (Normal r, s') ∧
    ¬ stores three_entries r ∧
    r ∈ heapArr s' ∧ r ∈ references s' ∧ (r ∉ deletedElements s') ∧
    item_of (objects s') r = {| element := JStr "d"; priority := 7 |} ∧
    length_ s' = length_ three_entries + 1 ∧
    totalProcessed s' = totalProcessed three_entries + 1 ∧
    (∀ r', r' ∈ heapArr three_entries → r' ∈ heapArr s').
Proof.
  apply (add_issues_fresh_reference (JStr "d") 7 three_entries).
  unfold three_entries. eexists. reflexivity.
Defined.

(** ** References the queue has never issued *)

(** X4: on a state the methods can reach, a reference that no [add] of this
    queue has returned makes [positionOf], [changePriority] (called with a
    finite number) and [removeByRef] throw a [ReferenceError], and the queue
    is unchanged. *)
Theorem unknown_reference_rejected r z s :
  reachable s → (length (objects s) ≤ r)%nat →
  positionOf r s = (Throw ReferenceError, s) ∧
  changePriority r (JNum z) s = (Throw ReferenceError, s) ∧
  removeByRef r s = (Throw ReferenceError, s).
Proof.
  intros [_ Halloc]%reachable_well_formed Hr.
  assert (¬ stores s r) as Hno.
  { intros H%Halloc. lia. }
  unfold stores in Hno. split_and!.
  - apply positionOf_absent. tauto.
  - apply changePriority_not_member. tauto.
  - apply removeByRef_unknown; tauto.
Qed.

Lemma unknown_reference_rejected_witness :
  positionOf 9%nat three_entries = (Throw ReferenceError, three_entries) ∧
  changePriority 9%nat (JNum 1) three_entries = (Throw ReferenceError, three_entries) ∧
  removeByRef 9%nat three_entries = (Throw ReferenceError, three_entries).
Proof.
  apply (unknown_reference_rejected 9%nat 1 three_entries).
  - unfold three_entries. eexists. reflexivity.
  - vm_compute. lia.
Defined.

(** ** The counter and the length *)

Lemma run_counter c s :
  counterDequeuedElements (run c s) = counterDequeuedElements s + finite_adds [c].
Proof.
  destruct c as [e p| | | | |p|r|r v|r|v| |f|]; simpl; try lia.
  - destruct p as [| | |z| | | |]; simpl; try lia.
    destruct (add_spec e z s) as (arr & m & -> & _). simpl. lia.
  - destruct (heapArr s) as [|root rest] eqn:Harr.
    + rewrite next_empty by done. simpl. lia.
    + destruct (next_nonempty s root rest Harr) as (arr & m & -> & _). simpl. lia.
  - rewrite at_state. lia.
  - rewrite positionOf_state. lia.
  - destruct v as [| | |z| | | |]; simpl; try lia.
    destruct (decide (r ∈ references s)) as [Hr|Hr].
    + destruct (changePriority_member r z s Hr) as (c & arr & m & -> & _).
      simpl. lia.
    + rewrite changePriority_not_member by done. simpl. lia.
  - destruct (decide (r ∈ deletedElements s)) as [Hd|Hd].
    { rewrite removeByRef_deleted by done. simpl. lia. }
    destruct (decide (r ∈ heapArr s)) as [Hr|Hr].
    + destruct (removeByRef_present r s Hd Hr) as [m ->]. simpl. lia.
    + rewrite removeByRef_unknown by done. simpl. lia.
  - destruct (removeByPosition_cases v s)
      as [[e ->]|[->|(p & item & b & s' & -> & Hitem & Hrm & ->)]];
      simpl; try lia.
    destruct (decide (item ∈ deletedElements s)) as [Hd|Hd].
    { rewrite removeByRef_deleted in Hrm by done. simplify_eq. lia. }
    destruct (removeByRef_present item s Hd) as [m Hm].
    { by eapply get_elem_of. }
    rewrite Hm in Hrm. simplify_eq. simpl. lia.
  - rewrite forEach_state. lia.
Qed.

(** X5: [totalProcessed] counts the [add] calls that passed the check of
    their priority: after any history it has grown by exactly the number of
    those calls, whatever else the history removes or clears. *)
Theorem totalProcessed_counts_adds cs s :
  totalProcessed (run_all cs s) = totalProcessed s + finite_adds cs.
Proof.
  revert s. induction cs as [|c cs IH]; intros s; [simpl; lia|].
  rewrite run_all_cons, IH. unfold totalProcessed. rewrite run_counter.
  simpl. destruct c as [e p| | | | | | | | | | | |]; try lia.
  destruct p; lia.
Qed.

(** X6: on every state the methods can reach, the length is at most
    [totalProcessed], and neither is negative. *)
Theorem length_at_most_totalProcessed s :
  reachable s → 0 ≤ length_ s ≤ totalProcessed s.
Proof.
  intros [cs <-]. induction cs as [|c cs IH] using rev_ind.
  { by vm_compute. }
  rewrite run_all_snoc. set (s := run_all cs new_queue) in *.
  unfold length_, totalProcessed in *.
  destruct (run_effect c s) as [| e z arr m Hperm
    | root rest arr m Hroot Hperm | r' z arr m Hr' Hperm | c r' m Hc Hd Hr' |];
    simpl; try lia.
  - rewrite Hperm, length_app. simpl. lia.
  - rewrite Hperm. rewrite Hroot in *.
    destruct (nonempty_shape root rest) as [->|(mid & popped & ->)].
    + simpl in *. lia.
    + rewrite pop_into_root_snoc. simpl in *. rewrite length_app in IH. simpl in IH. lia.
  - rewrite Hperm. lia.
  - rewrite length_delete by (eexists; by apply findIndex_lookup). lia.
Qed.

Lemma length_at_most_totalProcessed_witness :
  0 ≤ length_ (run_all script new_queue) ≤ totalProcessed (run_all script new_queue).
Proof.
  apply (length_at_most_totalProcessed (run_all script new_queue)).
  eexists. reflexivity.
Defined.

(** ** The element of an entry *)

Lemma run_item c s (r : ref) it :
  objects s !! r = Some it →
  ∃ it', objects (run c s) !! r = Some it' ∧ element it' = element it.
Proof.
  intros Hit. destruct (run_effect c s) as [| e z arr m Hperm
    | root rest arr m Hroot Hperm | r' z arr m Hr' Hperm | c r' m Hc Hd Hr' |];
    simpl; eauto.
  - exists it. split; [|done]. by apply lookup_app_l_Some.
  - unfold write_priority. rewrite list_lookup_insert.
    case_decide as Hd; [|eauto]. destruct Hd as [-> _].
    eexists. split; [done|]. unfold item_of, ref in *. by rewrite Hit.
Qed.

Lemma run_all_item cs s (r : ref) it :
  objects s !! r = Some it →
  ∃ it', objects (run_all cs s) !! r = Some it' ∧ element it' = element it.
Proof.
  revert s it. induction cs as [|c cs IH]; intros s it Hit; [eauto|].
  rewrite run_all_cons.
  destruct (run_item c s r it Hit) as (it1 & Hit1 & He1).
  destruct (IH _ _ Hit1) as (it2 & Hit2 & He2).
  exists it2. split; [done|congruence].
Qed.

(** X7: the element given to [add] stays with the reference through every
    later history, priority changes included: wherever the entry is stored,
    [at] of that position returns the reference with that element, and when
    it is at the root, [front] and [next] return that element. *)
Theorem added_element_is_kept s e p r s1 cs :
  add e p s = (Normal r, s1) →
  element (item_of (objects (run_all cs s1)) r) = e ∧
  (∀ k, get (heapArr (run_all cs s1)) (k - 1) = Some r →
        at_ (JNum k) (run_all cs s1) = (Normal (Some (r, e)), run_all cs s1)) ∧
  (head (heapArr (run_all cs s1)) = Some r →
   front (run_all cs s1) = e ∧ (next (run_all cs s1)).1 = Normal e).
Proof.
  intros Hadd.
  assert (element (item_of (objects (run_all cs s1)) r) = e) as Hel.
  { destruct p as [| | |z| | | |]; try done.
    destruct (add_spec e z s) as (arr & m & Hadd' & _).
    rewrite Hadd' in Hadd. simplify_eq.
    match goal with |- context [run_all cs ?st] =>
      destruct (run_all_item cs st (length (objects s))
                  {| element := e; priority := z |}) as (it & Hit & He)
    end.
    { simpl. by rewrite lookup_app_r, Nat.sub_diag by lia. }
    unfold item_of. by rewrite Hit. }
  split_and!; [done| |].
  - intros k Hk. pose proof (get_Some_range _ _ _ Hk).
    unfold at_, isNumber. run_monad.
    rewrite !decide_False by lia. by rewrite Hk, Hel.
  - intros Hhead. unfold front.
    destruct (heapArr (run_all cs s1)) as [|root rest] eqn:Harr; [done|].
    simpl in Hhead. injection Hhead as ->.
    split; [done|].
    destruct (next_nonempty _ r rest Harr) as (arr & m & -> & _). simpl.
    by rewrite Hel.
Qed.

Lemma added_element_is_kept_witness :
  let s := run_all (take 5 script) new_queue in
  let s1 := (add (JStr "objEl") (JNum (-12)) s).2 in
  let cs := [ChangePriority 3%nat (JNum 999); Add (JStr "z") (JNum 0)] in
  element (item_of (objects (run_all cs s1)) 3%nat) = JStr "objEl" ∧
  front (run_all cs s1) = JStr "objEl".
Proof.
  intros s s1 cs.
  destruct (added_element_is_kept s (JStr "objEl") (JNum (-12)) 3%nat s1 cs)
    as (Hel & _ & Hfront).
  - vm_compute. reflexivity.
  - split; [exact Hel|]. apply Hfront. vm_compute. reflexivity.
Defined.

(** ** Positions *)

(** X8: on a state the methods can reach, storage slot [i] (counted from
    0) is position [i + 1]: for the reference in the slot, [positionOf]
    returns [i + 1], and [at] of [i + 1] returns the reference with its
    element.  Conversely a position [positionOf] returns for a reference is
    from 1 to the length, it is the position of the slot that holds the
    reference, and no other reference has it. *)
Theorem positions_are_slots s :
  reachable s →
  (∀ (i : nat) r, heapArr s !! i = Some r →
     positionOf r s = (Normal (Z.of_nat i + 1), s) ∧
     at_ (JNum (Z.of_nat i + 1)) s =
       (Normal (Some (r, element (item_of (objects s) r))), s)) ∧
  (∀ r k, positionOf r s = (Normal k, s) →
     1 ≤ k ≤ length_ s ∧ heapArr s !! Z.to_nat (k - 1) = Some r ∧
     ∀ r', positionOf r' s = (Normal k, s) → r' = r).
Proof.
  intros [Hnd _]%reachable_well_formed. split.
  - intros i r Hi.
    assert (get (heapArr s) (Z.of_nat i) = Some r) as Hget.
    { unfold get. rewrite decide_True by lia. by rewrite Nat2Z.id. }
    pose proof (lookup_lt_Some _ _ _ Hi) as Hlt. split.
    + rewrite positionOf_present by (by eapply get_elem_of).
      by rewrite <- (findIndex_unique _ _ _ Hnd Hget).
    + unfold at_, isNumber. run_monad. rewrite !decide_False by lia.
      replace (Z.of_nat i + 1 - 1) with (Z.of_nat i) by lia. by rewrite Hget.
  - intros r k Hk. destruct (positionOf_rank _ _ _ _ Hk) as [Hrange Hget].
    split_and!; [lia..| |].
    + unfold get in Hget. by rewrite decide_True in Hget by lia.
    + intros r' Hk'. destruct (positionOf_rank _ _ _ _ Hk') as [_ Hget'].
      rewrite Hget in Hget'. by injection Hget'.
Qed.

Lemma positions_are_slots_witness :
  let s := three_entries in
  (∀ (i : nat) r, heapArr s !! i = Some r →
     positionOf r s = (Normal (Z.of_nat i + 1), s) ∧
     at_ (JNum (Z.of_nat i + 1)) s =
       (Normal (Some (r, element (item_of (objects s) r))), s)) ∧
  (∀ r k, positionOf r s = (Normal k, s) →
     1 ≤ k ≤ length_ s ∧ heapArr s !! Z.to_nat (k - 1) = Some r ∧
     ∀ r', positionOf r' s = (Normal k, s) → r' = r).
Proof.
  intros s. apply (positions_are_slots three_entries).
  unfold three_entries. eexists. reflexivity.
Defined.

(** ** The root of an ordered array *)

Lemma root_is_max mem arr root :
  heap_ordered_on mem arr → get arr 0 = Some root →
  ∀ j y, get arr j = Some y → prio mem y ≤ prio mem root.
Proof.
  intros H Hroot.
  assert (∀ n j y, Z.to_nat j = n → get arr j = Some y →
                   prio mem y ≤ prio mem root) as Hall; [|eauto].
  induction n as [n IH] using lt_wf_ind. intros j y Hn Hy.
  pose proof (get_Some_range _ _ _ Hy) as Hj.
  destruct (decide (j = 0)) as [->|Hj0]; [by simplify_eq|].
  pose proof (parent_child j ltac:(lia)) as Hc.
  destruct (get_in_range arr ((j - 1) `div` 2) ltac:(layout)) as [x Hx].
  etrans; [by eapply (H _ j)|].
  eapply (IH (Z.to_nat ((j - 1) `div` 2))); [|done..]. layout.
Qed.

Lemma head_get (arr : list ref) : get arr 0 = head arr.
Proof. by destruct arr. Qed.

(** X9: in a state whose storage is heap ordered, the entry at the root,
    whose element [front] returns, has a priority no stored entry exceeds. *)
Theorem front_has_highest_priority s root rest :
  heap_ordered s → heapArr s = root :: rest →
  front s = element (item_of (objects s) root) ∧
  ∀ r, r ∈ heapArr s → prio (objects s) r ≤ prio (objects s) root.
Proof.
  intros H Harr. split; [unfold front; by rewrite Harr|].
  intros r [j Hj]%elem_of_get.
  eapply root_is_max; [exact H| |exact Hj]. by rewrite Harr.
Qed.

Lemma front_has_highest_priority_witness :
  front three_entries = JStr "a" ∧
  ∀ r, r ∈ heapArr three_entries →
       prio (objects three_entries) r ≤ prio (objects three_entries) 0%nat.
Proof.
  apply (front_has_highest_priority three_entries 0%nat [1%nat; 2%nat]).
  - apply heap_orderedb_sound. vm_compute. reflexivity.
  - vm_compute. reflexivity.
Defined.

(** ** Heap ordering over histories *)

Lemma run_heap_ordered c s :
  well_formed s → heap_ordered s → is_removal c = false →
  heap_ordered (run c s).
Proof.
  intros Hwf H Hc. destruct c as [e p| | | | |p|r|r v|r|v| |f|]; simpl; try done.
  - by apply add_heap_ordered.
  - by apply next_heap_ordered.
  - by rewrite at_state.
  - by rewrite positionOf_state.
  - by apply changePriority_heap_ordered.
  - intros i j x y _ Hx. apply get_Some_range in Hx. simpl in Hx. lia.
  - by rewrite forEach_state.
Qed.

(** X10: in every state reached from a new queue by a history without
    [removeByRef] and [removeByPosition], the storage array is heap ordered:
    no entry has a higher priority than its parent.  [add], [next],
    [changePriority] and [clear] may occur in the history, also when they
    throw. *)
Theorem heap_ordered_without_removal cs :
  Forall (λ c, is_removal c = false) cs →
  heap_ordered (run_all cs new_queue).
Proof.
  induction cs as [|c cs IH] using rev_ind; intros Hcs.
  { apply new_queue_heap_ordered. }
  apply Forall_app in Hcs as [Hcs Hc]. apply Forall_inv in Hc.
  rewrite run_all_snoc. apply run_heap_ordered; [|by apply IH|done].
  apply reachable_well_formed. by eexists.
Qed.

Lemma heap_ordered_without_removal_witness :
  heap_ordered (run_all (take 8 script) new_queue).
Proof.
  apply (heap_ordered_without_removal (take 8 script)).
  vm_compute. repeat constructor.
Defined.

(** ** Order of dequeuing *)

(** X11: from a heap-ordered state, [next] returns the element of the root,
    leaves the storage heap ordered, and the entry it leaves at the root,
    which the following [next] returns, has a priority not above that of
    the entry just returned. *)
Theorem next_dequeues_in_priority_order s root rest :
  heap_ordered s → heapArr s = root :: rest →
  (next s).1 = Normal (element (item_of (objects s) root)) ∧
  heap_ordered (next s).2 ∧
  ∀ root' rest', heapArr (next s).2 = root' :: rest' →
    prio (objects s) root' ≤ prio (objects s) root ∧
    (next (next s).2).1 = Normal (element (item_of (objects s) root')).
Proof.
  intros H Harr. pose proof (next_heap_ordered s H) as Hnext.
  destruct (next_nonempty s root rest Harr) as (arr & m & Heq & Hperm & _).
  rewrite Heq in *. simpl. split_and!; [done..|].
  intros root' rest' Harr'. split.
  - assert (root' ∈ heapArr s) as Hin.
    { apply pop_into_root_subseteq. rewrite <- Hperm, Harr'. by left. }
    apply elem_of_get in Hin as [j Hj].
    eapply root_is_max; [exact H| |exact Hj]. by rewrite Harr.
  - match goal with |- context [next ?st] =>
      destruct (next_nonempty st root' rest' Harr') as (arr2 & m2 & -> & _) end.
    done.
Qed.

Lemma next_dequeues_in_priority_order_witness :
  (next three_entries).1 = Normal (JStr "a") ∧
  (next (next three_entries).2).1 = Normal (JStr "c") ∧
  prio (objects three_entries) 2%nat ≤ prio (objects three_entries) 0%nat.
Proof.
  destruct (next_dequeues_in_priority_order three_entries 0%nat [1%nat; 2%nat])
    as (H1 & _ & H2).
  - apply heap_orderedb_sound. vm_compute. reflexivity.
  - vm_compute. reflexivity.
  - destruct (H2 2%nat [1%nat]) as [Hle Hsecond].
    + vm_compute. reflexivity.
    + split_and!; [exact H1|exact Hsecond|exact Hle].
Defined.

(** ** Entries that move to the front *)

Lemma findIndex_head (r : ref) rest : findIndex (r :: rest) r = 0.
Proof. unfold findIndex. simpl. by rewrite decide_True. Qed.

(** X12: in a reachable, heap-ordered state, [changePriority] of a stored
    reference to a priority above that of every other stored entry returns 1
    and leaves that entry at the root, so that [front] returns its element. *)
Theorem changePriority_above_all s r z :
  reachable s → heap_ordered s → r ∈ references s → r ∈ heapArr s →
  (∀ r', r' ∈ heapArr s → r' ≠ r → prio (objects s) r' < z) →
  (changePriority r (JNum z) s).1 = Normal 1 ∧
  head (heapArr (changePriority r (JNum z) s).2) = Some r ∧
  front (changePriority r (JNum z) s).2 = element (item_of (objects s) r).
Proof.
  intros [Hnd Halloc]%reachable_well_formed H Hr Hin Hz.
  destruct (changePriority_member r z s Hr)
    as (c & arr & m & -> & _ & Hperm & Hc & Hheap).
  specialize (Hc Hin). specialize (Hheap Hnd H). simpl.
  assert (r < length (objects s))%nat as Hlt by (apply Halloc; by left).
  destruct arr as [|root rest'] eqn:Harr.
  { rewrite <- Hperm in Hin. by apply elem_of_nil in Hin. }
  assert (root = r) as ->.
  { destruct (decide (root = r)) as [|Hne]; [done|].
    assert (prio (write_priority (objects s) r z) r ≤
            prio (write_priority (objects s) r z) root) as Hle.
    { destruct (elem_of_get (root :: rest') r) as [j Hj]; [by rewrite Hperm|].
      eapply root_is_max; [exact Hheap|done|exact Hj]. }
    rewrite !prio_write in Hle.
    rewrite decide_True, decide_False in Hle by tauto.
    assert (prio (objects s) root < z); [|lia].
    apply Hz; [|done]. rewrite <- Hperm. by left. }
  rewrite Hc, findIndex_head. split_and!; [done..|].
  unfold front. simpl. unfold item_of, write_priority, ref in *.
  rewrite list_lookup_insert_eq by done. done.
Qed.

Lemma three_entries_heapArr : heapArr three_entries = [0; 1; 2]%nat.
Proof. vm_compute. reflexivity. Qed.

Lemma changePriority_above_all_witness :
  (changePriority 1%nat (JNum 9) three_entries).1 = Normal 1 ∧
  head (heapArr (changePriority 1%nat (JNum 9) three_entries).2) = Some 1%nat ∧
  front (changePriority 1%nat (JNum 9) three_entries).2 =
    element (item_of (objects three_entries) 1%nat).
Proof.
  apply (changePriority_above_all three_entries 1%nat 9).
  - unfold three_entries. eexists. reflexivity.
  - apply heap_orderedb_sound. vm_compute. reflexivity.
  - apply (bool_decide_unpack _). vm_compute. exact I.
  - rewrite three_entries_heapArr. apply (bool_decide_unpack _). vm_compute. exact I.
  - rewrite three_entries_heapArr. intros r' Hr' Hne.
    apply elem_of_cons in Hr' as [->|Hr']; [vm_compute; reflexivity|].
    apply elem_of_cons in Hr' as [->|Hr']; [by destruct Hne|].
    apply elem_of_cons in Hr' as [->|Hr']; [vm_compute; reflexivity|].
    by apply elem_of_nil in Hr'.
Defined.

(** X13: in a reachable, heap-ordered state, an entry added with a priority
    above that of every stored entry is stored at the root: [front] returns
    its element and [positionOf] of the returned reference is 1. *)
Theorem add_above_all s e z :
  reachable s → heap_ordered s →
  (∀ r, r ∈ heapArr s → prio (objects s) r < z) →
  ∃ r s', add e (JNum z) s = (Normal r, s') ∧
          head (heapArr s') = Some r ∧ front s' = e ∧
          positionOf r s' = (Normal 1, s').
Proof.
  intros [Hnd Halloc]%reachable_well_formed H Hz.
  destruct (add_spec e z s) as (arr & m & Hadd & Hperm & Hheap).
  set (new := length (objects s)) in *.
  set (mem := objects s ++ [{| element := e; priority := z |}]) in *.
  assert (heap_ordered_on mem arr) as Hord.
  { apply Hheap, append_up_inv; [|done]. intros r Hr. apply Halloc. by left. }
  assert (prio mem new = z) as Hnew.
  { unfold prio, item_of, mem, new. by rewrite lookup_app_r, Nat.sub_diag by lia. }
  eexists _, _. split; [exact Hadd|]. simpl.
  destruct arr as [|root rest'] eqn:Harr.
  { symmetry in Hperm. apply Permutation_nil_r in Hperm.
    by destruct (heapArr s). }
  assert (root = new) as ->.
  { destruct (decide (root = new)) as [|Hne]; [done|].
    assert (root ∈ heapArr s) as Hroot.
    { assert (root ∈ heapArr s ++ [new]) as Hin by (rewrite <- Hperm; by left).
      apply elem_of_app in Hin as [|Hin%list_elem_of_singleton]; done. }
    assert (prio mem new ≤ prio mem root) as Hle.
    { destruct (elem_of_get (root :: rest') new) as [j Hj].
      { rewrite Hperm, elem_of_app, list_elem_of_singleton. by right. }
      eapply root_is_max; [exact Hord|done|exact Hj]. }
    unfold mem in Hle at 2. rewrite prio_app in Hle by (apply Halloc; by left).
    specialize (Hz root Hroot). lia. }
  split_and!; [done| |].
  - unfold front. simpl. fold mem. unfold prio in Hnew.
    unfold item_of, mem, new. by rewrite lookup_app_r, Nat.sub_diag by lia.
  - rewrite positionOf_present by (simpl; by left). simpl.
    by rewrite findIndex_head.
Qed.

Lemma add_above_all_witness :
  ∃ r s', add (JStr "d") (JNum 7) three_entries = (Normal r, s') ∧
          head (heapArr s') = Some r ∧ front s' = JStr "d" ∧
          positionOf r s' = (Normal 1, s').
Proof.
  apply (add_above_all three_entries (JStr "d") 7).
  - unfold three_entries. eexists. reflexivity.
  - apply heap_orderedb_sound. vm_compute. reflexivity.
  - rewrite three_entries_heapArr. intros r Hr.
    apply elem_of_cons in Hr as [->|Hr]; [vm_compute; reflexivity|].
    apply elem_of_cons in Hr as [->|Hr]; [vm_compute; reflexivity|].
    apply elem_of_cons in Hr as [->|Hr]; [vm_compute; reflexivity|].
    by apply elem_of_nil in Hr.
Defined.

(** ** Entries that stay behind the front *)

(** [bubbleUp] passes the root only with a priority above the root's. *)
Lemma bubbleUp_loop_keeps_root fuel mem arr k ne root :
  get arr 0 = Some root → get arr k = Some ne →
  prio mem ne ≤ prio mem root →
  get (bubbleUp_loop fuel mem (Some ne) arr k).2 0 = Some root.
Proof.
  revert arr k. induction fuel as [|fuel IH]; intros arr k Hroot Hne Hle; [done|].
  pose proof (get_Some_range _ _ _ Hne) as Hk.
  simpl. destruct (decide (k = 0)) as [->|Hk0]; [done|].
  pose proof (parent_child k ltac:(lia)) as Hqk.
  destruct (get arr ((k - 1) `div` 2)) as [pe|] eqn:Hpe; [|done].
  destruct (decide (prio mem ne ≤ prio mem pe)) as [|Hgt]; [done|].
  assert ((k - 1) `div` 2 ≠ k) by layout.
  assert ((k - 1) `div` 2 ≠ 0) as Hq0.
  { intros Hq. rewrite Hq in Hpe. assert (pe = root) as -> by congruence. lia. }
  apply IH; [| |done].
  - rewrite (get_exchange arr _ k pe ne) by done.
    by rewrite !decide_False by done.
  - rewrite (get_exchange arr _ k pe ne) by done.
    by rewrite decide_False, decide_True by done.
Qed.

Lemma bubbleUp_keeps_root k s ne root :
  get (heapArr s) 0 = Some root → get (heapArr s) k = Some ne →
  prio (objects s) ne ≤ prio (objects s) root →
  get (heapArr (bubbleUp k s).2) 0 = Some root.
Proof.
  intros Hroot Hne Hle. unfold bubbleUp. rewrite Hne.
  pose proof (bubbleUp_loop_keeps_root (S (Z.to_nat k)) (objects s)
                (heapArr s) k ne root Hroot Hne Hle) as Hloop.
  by destruct (bubbleUp_loop _ _ _ _ _) as [c arr].
Qed.

Opaque bubbleUp increasePriority.

(** The storage array [add] leaves is the one its [bubbleUp] leaves. *)
Lemma add_heapArr e z s :
  heapArr (add e (JNum z) s).2 =
  heapArr (bubbleUp (Z.of_nat (length (heapArr s ++ [length (objects s)])) - 1)
             (set_heapArr (heapArr s ++ [length (objects s)])
                (set_objects (objects s ++ [{| element := e; priority := z |}]) s))).2.
Proof.
  unfold add, isNumber, bind, ret, gets, modify. simpl.
  match goal with |- context [bubbleUp ?k ?st] =>
    destruct (bubbleUp_spec k st) as (c & arr & -> & _ & _ & Hdef & _) end.
  simpl in *. rewrite Hdef.
  2:{ apply get_in_range. rewrite length_app. simpl. lia. }
  match goal with |- context [increasePriority ?k ?st] =>
    destruct (increasePriority_spec k st) as (m & ->) end.
  done.
Qed.

Transparent bubbleUp increasePriority.

(** X14: in a reachable state, an entry added with a priority that is at
    most the priority of the root does not displace the root: the root
    entry, and so the result of [front], is the same as before the [add]. *)
Theorem add_keeps_front s e z root rest :
  reachable s → heapArr s = root :: rest → z ≤ prio (objects s) root →
  head (heapArr (add e (JNum z) s).2) = Some root ∧
  front (add e (JNum z) s).2 = front s.
Proof.
  intros [_ Halloc]%reachable_well_formed Harr Hz.
  assert (root < length (objects s))%nat as Hroot.
  { apply Halloc. left. rewrite Harr. by left. }
  assert (get (heapArr (add e (JNum z) s).2) 0 = Some root) as Hget.
  { rewrite add_heapArr.
    apply (bubbleUp_keeps_root _ _ (length (objects s))); simpl.
    - by rewrite Harr.
    - unfold get. rewrite decide_True by (rewrite length_app; simpl; lia).
      rewrite length_app. simpl.
      replace (Z.to_nat (Z.of_nat (length (heapArr s) + 1) - 1))
        with (length (heapArr s) + 0)%nat by lia.
      by rewrite lookup_app_r, Nat.add_comm, Nat.add_sub by lia.
    - rewrite (prio_app _ _ root) by done.
      unfold prio at 1. unfold item_of.
      by rewrite lookup_app_r, Nat.sub_diag by lia. }
  rewrite head_get in Hget. split; [done|].
  unfold front. rewrite Harr.
  destruct (heapArr (add e (JNum z) s).2) as [|root' rest']; simplify_eq/=.
  destruct (add_spec e z s) as (arr & m & -> & _). simpl.
  unfold item_of. by rewrite lookup_app_l.
Qed.

Lemma add_keeps_front_witness :
  head (heapArr (add (JStr "again") (JNum 3) three_entries).2) = Some 0%nat ∧
  front (add (JStr "again") (JNum 3) three_entries).2 = front three_entries.
Proof.
  apply (add_keeps_front three_entries (JStr "again") 3 0%nat [1%nat; 2%nat]).
  - unfold three_entries. eexists. reflexivity.
  - vm_compute. reflexivity.
  - vm_compute. intros H. discriminate H.
Defined.

(** ** Removal by reference and by position *)

Lemma get_delete (arr : list ref) i j :
  0 ≤ i → 0 ≤ j →
  get (delete (Z.to_nat i) arr) j =
    if decide (j < i) then get arr j else get arr (j + 1).
Proof.
  intros Hi Hj. unfold get. repeat case_decide; try lia.
  - apply list_lookup_delete_lt. lia.
  - rewrite list_lookup_delete_ge by lia. f_equal. lia.
Qed.

Lemma NoDup_delete_at (arr : list ref) i r :
  NoDup arr → arr !! i = Some r → NoDup (delete i arr) ∧ r ∉ delete i arr.
Proof.
  intros Hnd Hi. pose proof (delete_Permutation _ _ _ Hi) as Hperm.
  rewrite Hperm in Hnd. by apply NoDup_cons in Hnd as [? ?].
Qed.

(** X15: in a reachable state, [removeByRef] of a stored reference that is
    not marked removed returns [true] and takes exactly that entry out: the
    length drops by one, [positionOf] of the reference now throws, every
    entry stored behind it moves one position forward and every entry stored
    before it keeps its position. *)
Theorem removeByRef_shifts_positions s r r' k k' :
  reachable s → r ∉ deletedElements s →
  positionOf r s = (Normal k, s) → positionOf r' s = (Normal k', s) → r' ≠ r →
  ∃ s', removeByRef r s = (Normal true, s') ∧
        length_ s' = length_ s - 1 ∧
        positionOf r s' = (Throw ReferenceError, s') ∧
        positionOf r' s' = (Normal (if decide (k' < k) then k' else k' - 1), s').
Proof.
  intros [Hnd _]%reachable_well_formed Hd Hk Hk' Hne.
  destruct (positionOf_rank _ _ _ _ Hk) as [Hkr Hgetr].
  destruct (positionOf_rank _ _ _ _ Hk') as [Hkr' Hgetr'].
  pose proof (get_elem_of _ _ _ Hgetr) as Hin.
  destruct (removeByRef_present r s Hd Hin) as [m Hrm].
  rewrite <- (findIndex_unique _ _ _ Hnd Hgetr) in Hrm.
  assert (heapArr s !! Z.to_nat (k - 1) = Some r) as Hlook.
  { unfold get in Hgetr. by rewrite decide_True in Hgetr by lia. }
  destruct (NoDup_delete_at _ _ _ Hnd Hlook) as [Hnd' Hnin].
  eexists. split; [exact Hrm|]. split_and!.
  - unfold length_ in *. simpl. rewrite length_delete by eauto. lia.
  - by apply positionOf_absent.
  - assert (k' ≠ k) as Hkk.
    { intros ->. rewrite Hgetr in Hgetr'. by simplify_eq. }
    assert (get (delete (Z.to_nat (k - 1)) (heapArr s))
              ((if decide (k' < k) then k' else k' - 1) - 1) = Some r') as Hget.
    { destruct (decide (k' < k)) as [Hlt|Hge].
      - rewrite get_delete by lia. by rewrite decide_True by lia.
      - rewrite get_delete by lia. rewrite decide_False by lia.
        rewrite <- Hgetr'. f_equal. lia. }
    rewrite positionOf_present by (simpl; by eapply get_elem_of).
    simpl. rewrite <- (findIndex_unique _ _ _ Hnd' Hget). do 2 f_equal. lia.
Qed.

Lemma removeByRef_shifts_positions_witness :
  let s := run_all (take 8 script) new_queue in
  ∃ s', removeByRef 4%nat s = (Normal true, s') ∧
        length_ s' = length_ s - 1 ∧
        positionOf 4%nat s' = (Throw ReferenceError, s') ∧
        positionOf 5%nat s' = (Normal (if decide (5 < 4) then 5 else 5 - 1), s').
Proof.
  intros s.
  apply (removeByRef_shifts_positions s 4%nat 5%nat 4 5).
  - eexists. reflexivity.
  - apply (bool_decide_unpack _). vm_compute. exact I.
  - vm_compute. reflexivity.
  - vm_compute. reflexivity.
  - intros H. discriminate H.
Defined.

(** X16: in a reachable state, [removeByPosition] of the position that
    [positionOf] returns for a reference does what [removeByRef] of the
    reference does.  If the reference is not marked removed both return
    [true] and leave the same queue: the entry is spliced out of its slot
    and marked removed, and the length drops by one.  If it is marked
    removed (the state [next] leaves on a queue of one entry) the queue is
    unchanged; [removeByRef] returns [false] and [removeByPosition] returns
    [true]. *)
Theorem removeByPosition_of_positionOf s r k :
  reachable s → positionOf r s = (Normal k, s) →
  (r ∉ deletedElements s →
   ∃ s', removeByRef r s = (Normal true, s') ∧
         removeByPosition (JNum k) s = (Normal true, s') ∧
         heapArr s' = delete (Z.to_nat (k - 1)) (heapArr s) ∧
         r ∈ deletedElements s' ∧ length_ s' = length_ s - 1) ∧
  (r ∈ deletedElements s →
   removeByRef r s = (Normal false, s) ∧
   removeByPosition (JNum k) s = (Normal true, s)).
Proof.
  intros [Hnd _]%reachable_well_formed Hk.
  destruct (positionOf_rank _ _ _ _ Hk) as [Hrange Hr].
  pose proof (get_elem_of _ _ _ Hr) as Hin. unfold length_ in Hrange.
  assert (∀ b s', removeByRef r s = (Normal b, s') →
            removeByPosition (JNum k) s = (Normal true, s')) as Hpos.
  { intros b s' Hrm. unfold removeByPosition, isNumber. run_monad.
    rewrite !decide_False by lia. rewrite Hr. by rewrite Hrm. }
  split; intros Hd.
  - destruct (removeByRef_present r s Hd Hin) as [m Hrm].
    rewrite <- (findIndex_unique _ _ _ Hnd Hr) in Hrm.
    eexists. split; [exact Hrm|]. split; [by eapply Hpos|]. simpl. split_and!.
    + done.
    + apply elem_of_union. left. by apply elem_of_singleton.
    + unfold length_. simpl. rewrite length_delete; [lia|].
      unfold get in Hr. rewrite decide_True in Hr by lia. eauto.
  - pose proof (removeByRef_deleted r s Hd) as Hrm. split; [done|].
    by eapply Hpos.
Qed.

Lemma removeByPosition_of_positionOf_witness :
  let s := run_all (take 8 script) new_queue in
  ∃ s', removeByRef 4%nat s = (Normal true, s') ∧
        removeByPosition (JNum 4) s = (Normal true, s') ∧
        heapArr s' = delete (Z.to_nat (4 - 1)) (heapArr s) ∧
        4%nat ∈ deletedElements s' ∧ length_ s' = length_ s - 1.
Proof.
  intros s.
  destruct (removeByPosition_of_positionOf s 4%nat 4) as [Hlive _].
  - eexists. reflexivity.
  - vm_compute. reflexivity.
  - apply Hlive. apply (bool_decide_unpack _). vm_compute. exact I.
Defined.

(** ** What [next] takes out *)

(** X17: in a reachable state with two entries or more, [next] returns the
    element of the root and takes exactly the root out: the storage keeps
    the other entries and loses the root, whose reference is from then on
    rejected by [positionOf] and [changePriority] with a [ReferenceError]
    and answered by [removeByRef] with [false]. *)
Theorem next_removes_root s root rest z :
  reachable s → heapArr s = root :: rest → rest ≠ [] →
  ∃ s', next s = (Normal (element (item_of (objects s) root)), s') ∧
        heapArr s ≡ₚ root :: heapArr s' ∧
        (root ∉ heapArr s') ∧
        length_ s' = length_ s - 1 ∧
        positionOf root s' = (Throw ReferenceError, s') ∧
        changePriority root (JNum z) s' = (Throw ReferenceError, s') ∧
        removeByRef root s' = (Normal false, s').
Proof.
  intros [Hnd _]%reachable_well_formed Harr Hrest.
  destruct (next_nonempty s root rest Harr) as (arr & m & Heq & Hperm & _).
  eexists. split; [exact Heq|]. simpl.
  assert (heapArr s ≡ₚ root :: arr) as Hall.
  { rewrite Hperm, Harr.
    destruct (nonempty_shape root rest) as [->|(mid & popped & ->)]; [done|].
    rewrite pop_into_root_snoc.
    change (root :: mid ++ [popped]) with ((root :: mid) ++ [popped]).
    rewrite Permutation_app_comm. simpl. apply Permutation_swap. }
  assert (root ∉ arr) as Hnin.
  { rewrite Hall in Hnd. by apply NoDup_cons in Hnd as [? ?]. }
  split_and!; [done..| | | |].
  - unfold length_. simpl. rewrite Hall. simpl. lia.
  - by apply positionOf_absent.
  - apply changePriority_not_member. simpl.
    rewrite elem_of_difference, elem_of_singleton. tauto.
  - apply removeByRef_deleted. simpl.
    apply elem_of_union. left. by apply elem_of_singleton.
Qed.

Lemma next_removes_root_witness :
  ∃ s', next three_entries = (Normal (element (item_of (objects three_entries) 0%nat)), s') ∧
        heapArr three_entries ≡ₚ 0%nat :: heapArr s' ∧
        (0%nat ∉ heapArr s') ∧
        length_ s' = length_ three_entries - 1 ∧
        positionOf 0%nat s' = (Throw ReferenceError, s') ∧
        changePriority 0%nat (JNum 5) s' = (Throw ReferenceError, s') ∧
        removeByRef 0%nat s' = (Normal false, s').
Proof.
  apply (next_removes_root three_entries 0%nat [1%nat; 2%nat] 5).
  - unfold three_entries. eexists. reflexivity.
  - vm_compute. reflexivity.
  - intros H. discriminate H.
Defined.

(** ** The histogram *)

Lemma increasePriority_eq p s :
  increasePriority p s =
    (Normal tt, set_prioritiesObj (inc_count p (prioritiesObj s)) s).
Proof.
  unfold increasePriority, modify, inc_count.
  destruct (prioritiesObj s !! p) as [[n|]|]; [case_decide|..]; done.
Qed.

Lemma decreasePriority_eq p s :
  decreasePriority p s =
    (Normal tt, set_prioritiesObj (dec_count p (prioritiesObj s)) s).
Proof.
  unfold decreasePriority, modify, dec_count.
  destruct (prioritiesObj s !! p) as [[n|]|]; [case_decide|..]; done.
Qed.

Lemma inc_count_exact m f p :
  0 ≤ f p → exact_on m f →
  exact_on (inc_count p m) (λ q, if decide (q = p) then f q + 1 else f q).
Proof.
  intros Hf Hm q. unfold inc_count. rewrite (Hm p).
  destruct (decide (f p = 0)) as [H0|H0].
  - rewrite lookup_insert. destruct (decide (q = p)) as [->|Hne].
    + rewrite decide_True by done. rewrite decide_False by lia. by rewrite H0.
    + rewrite decide_False by done. apply Hm.
  - rewrite decide_False by done. rewrite lookup_insert.
    destruct (decide (q = p)) as [->|Hne].
    + rewrite decide_True by done. by rewrite decide_False by lia.
    + rewrite decide_False by done. apply Hm.
Qed.

Lemma dec_count_exact m f p :
  1 ≤ f p → exact_on m f →
  exact_on (dec_count p m) (λ q, if decide (q = p) then f q - 1 else f q).
Proof.
  intros Hf Hm q. unfold dec_count. rewrite (Hm p).
  rewrite decide_False by lia.
  destruct (decide (f p = 1)) as [H1|H1].
  - rewrite lookup_delete. destruct (decide (q = p)) as [->|Hne].
    + rewrite decide_True by done. by rewrite decide_True by lia.
    + rewrite decide_False by done. apply Hm.
  - rewrite lookup_insert. destruct (decide (q = p)) as [->|Hne].
    + rewrite decide_True by done. by rewrite decide_False by lia.
    + rewrite decide_False by done. apply Hm.
Qed.

Lemma exact_on_ext m f g : (∀ q, f q = g q) → exact_on m f → exact_on m g.
Proof. intros Hfg Hm q. rewrite <- Hfg. apply Hm. Qed.

Lemma tally_nonneg mem arr p : 0 ≤ tally mem arr p.
Proof. unfold tally. lia. Qed.

Lemma tally_cons mem r arr p :
  tally mem (r :: arr) p =
    (if decide (prio mem r = p) then 1 else 0) + tally mem arr p.
Proof.
  unfold tally. rewrite filter_cons. case_decide; simpl; lia.
Qed.

Lemma tally_Permutation mem arr arr' p :
  arr ≡ₚ arr' → tally mem arr p = tally mem arr' p.
Proof. intros Hperm. unfold tally. by rewrite Hperm. Qed.

Lemma tally_ext mem mem' arr p :
  (∀ r, r ∈ arr → prio mem' r = prio mem r) →
  tally mem' arr p = tally mem arr p.
Proof.
  induction arr as [|r arr IH]; intros Hext; [done|].
  rewrite !tally_cons, IH.
  - by rewrite Hext by (by left).
  - intros r' Hr'. apply Hext. by right.
Qed.

Lemma tally_elem_of mem arr r : r ∈ arr → 1 ≤ tally mem arr (prio mem r).
Proof.
  induction arr as [|x arr IH]; intros Hr.
  - by apply elem_of_nil in Hr.
  - rewrite tally_cons. pose proof (tally_nonneg mem arr (prio mem r)).
    apply elem_of_cons in Hr as [->|Hr].
    + rewrite decide_True by done. lia.
    + specialize (IH Hr). case_decide; lia.
Qed.

Opaque bubbleUp bubbleDown increasePriority decreasePriority.

Lemma add_stats e z s :
  prioritiesObj (add e (JNum z) s).2 = inc_count z (prioritiesObj s).
Proof.
  unfold add, isNumber, bind, ret, gets, modify. simpl.
  match goal with |- context [bubbleUp ?k ?st] =>
    destruct (bubbleUp_spec k st) as (c & arr & -> & _ & _ & Hdef & _) end.
  simpl in *. rewrite Hdef.
  2:{ apply get_in_range. rewrite length_app. simpl. lia. }
  by rewrite increasePriority_eq.
Qed.

Lemma next_stats s root rest :
  heapArr s = root :: rest →
  prioritiesObj (next s).2 = dec_count (prio (objects s) root) (prioritiesObj s).
Proof.
  destruct s as [arr0 cnt m0 refs del mem]. simpl. intros ->.
  unfold next, bind, ret, gets, modify. simpl.
  rewrite decide_False by (by apply pop_into_root_length).
  match goal with |- context [bubbleDown ?k ?st] =>
    destruct (bubbleDown_spec k st) as (c & arr & -> & _ & _ & Hdef & _) end.
  simpl in *. rewrite Hdef.
  2:{ apply get_in_range.
      pose proof (pop_into_root_length (root :: rest) ltac:(done)). lia. }
  by rewrite decreasePriority_eq.
Qed.

Lemma changePriority_stats r z s :
  r ∈ references s →
  prioritiesObj (changePriority r (JNum z) s).2 =
    inc_count z (dec_count (prio (objects s) r) (prioritiesObj s)).
Proof.
  destruct s as [arr0 cnt m0 refs del mem]. simpl. intros Hr.
  unfold changePriority, isNumber, getValueByReference.
  unfold bind, ret, throw, gets, modify. simpl.
  rewrite bool_decide_eq_true_2 by done. simpl.
  rewrite decide_True by done.
  rewrite decreasePriority_eq. simpl. rewrite increasePriority_eq. simpl.
  destruct (decide (z < prio mem r)) as [Hlt|Hge];
    [|destruct (decide (prio mem r < z)) as [Hgt|Hle]].
  - match goal with |- context [bubbleDown ?k ?st] =>
      destruct (bubbleDown_spec k st) as (c & arr & -> & _) end.
    destruct c as [[]|e|]; simpl; [|done..].
    by rewrite bool_decide_eq_true_2 by done.
  - match goal with |- context [bubbleUp ?k ?st] =>
      destruct (bubbleUp_spec k st) as (c & arr & -> & _) end.
    destruct c as [[]|e|]; simpl; [|done..].
    by rewrite bool_decide_eq_true_2 by done.
  - by rewrite bool_decide_eq_true_2 by done.
Qed.

Lemma removeByRef_stats r s :
  r ∉ deletedElements s → r ∈ heapArr s →
  prioritiesObj (removeByRef r s).2 =
    dec_count (prio (objects s) r) (prioritiesObj s).
Proof.
  destruct s as [arr0 cnt m0 refs del mem]. simpl. intros Hd Hr.
  pose proof (findIndex_get _ _ Hr) as Hget.
  unfold removeByRef, getIndexByReference.
  unfold bind, ret, throw, gets, modify. simpl.
  rewrite bool_decide_eq_false_2 by done. simpl.
  unfold findIndex in *. destruct (scan arr0 r 0) as [k|] eqn:Hs.
  2:{ by apply scan_None in Hs. }
  simpl in *. rewrite Hget. by rewrite decreasePriority_eq.
Qed.

Transparent bubbleUp bubbleDown increasePriority decreasePriority.

Lemma add_histogram_exact e z s :
  well_formed s → histogram_exact s → histogram_exact (add e (JNum z) s).2.
Proof.
  intros [_ Halloc] H. unfold histogram_exact, stats.
  rewrite add_stats.
  destruct (add_spec e z s) as (arr & m & -> & Hperm & _). simpl.
  eapply exact_on_ext; [|apply inc_count_exact; [apply tally_nonneg|exact H]].
  intros q. simpl.
  rewrite (tally_Permutation _ _ _ _ Hperm).
  rewrite (tally_Permutation _ (heapArr s ++ _) (length (objects s) :: heapArr s))
    by apply Permutation_app_comm.
  rewrite tally_cons.
  rewrite (tally_ext (objects s) (objects s ++ _)).
  2:{ intros r Hr. apply prio_app, Halloc. by left. }
  assert (prio (objects s ++ [{| element := e; priority := z |}])
               (length (objects s)) = z) as ->.
  { unfold prio, item_of. by rewrite lookup_app_r, Nat.sub_diag by lia. }
  repeat case_decide; subst; lia.
Qed.

Lemma remove_histogram_exact mem arr arr' r m :
  arr ≡ₚ r :: arr' → exact_on m (tally mem arr) →
  exact_on (dec_count (prio mem r) m) (tally mem arr').
Proof.
  intros Hperm H.
  eapply exact_on_ext; [|apply dec_count_exact; [|exact H]].
  - intros q. simpl. rewrite (tally_Permutation _ _ _ _ Hperm), tally_cons.
    repeat case_decide; subst; lia.
  - apply tally_elem_of. rewrite Hperm. by left.
Qed.

Lemma next_histogram_exact s :
  well_formed s → histogram_exact s → length (heapArr s) ≠ 1%nat →
  histogram_exact (next s).2.
Proof.
  intros [Hnd _] H Hlen. destruct (heapArr s) as [|root rest] eqn:Harr.
  { by rewrite next_empty. }
  unfold histogram_exact, stats. rewrite (next_stats s root rest Harr).
  destruct (next_nonempty s root rest Harr) as (arr & m & -> & Hperm & _). simpl.
  apply (remove_histogram_exact _ (heapArr s)); [|exact H].
  rewrite Hperm, Harr.
  destruct (nonempty_shape root rest) as [->|(mid & popped & ->)]; [done|].
  rewrite pop_into_root_snoc.
  change (root :: mid ++ [popped]) with ((root :: mid) ++ [popped]).
  rewrite Permutation_app_comm. simpl. apply Permutation_swap.
Qed.

Lemma removeByRef_histogram_exact r s :
  histogram_exact s → histogram_exact (removeByRef r s).2.
Proof.
  intros H. destruct (decide (r ∈ deletedElements s)) as [Hd|Hd].
  { by rewrite removeByRef_deleted. }
  destruct (decide (r ∈ heapArr s)) as [Hr|Hr].
  2:{ by rewrite removeByRef_unknown. }
  unfold histogram_exact, stats. rewrite removeByRef_stats by done.
  destruct (removeByRef_present r s Hd Hr) as [m ->]. simpl.
  apply (remove_histogram_exact _ (heapArr s)); [|exact H].
  apply delete_Permutation, findIndex_lookup, Hr.
Qed.

Lemma changePriority_histogram_exact r z s :
  well_formed s → histogram_exact s →
  r ∈ references s → r ∈ heapArr s →
  histogram_exact (changePriority r (JNum z) s).2.
Proof.
  intros [Hnd Halloc] H Hr Hin. unfold histogram_exact, stats.
  rewrite changePriority_stats by done.
  destruct (changePriority_member r z s Hr) as (c & arr & m & -> & _ & Hperm & _).
  simpl.
  assert (r < length (objects s))%nat as Hlt by (apply Halloc; by left).
  destruct (list_elem_of_split _ _ Hin) as (l1 & l2 & Hsplit).
  assert (heapArr s ≡ₚ r :: (l1 ++ l2)) as Hall.
  { rewrite Hsplit. by rewrite Permutation_middle. }
  assert (r ∉ l1 ++ l2) as Hnin.
  { rewrite Hall in Hnd. by apply NoDup_cons in Hnd as [? ?]. }
  pose proof (remove_histogram_exact (objects s) (heapArr s) (l1 ++ l2) r _
                Hall H) as Hdec.
  pose proof (inc_count_exact _ _ z (tally_nonneg _ _ _) Hdec) as Hinc.
  eapply exact_on_ext; [|exact Hinc].
  intros q. simpl.
  rewrite (tally_Permutation _ arr (r :: (l1 ++ l2))) by (by rewrite Hperm).
  rewrite tally_cons, prio_write. rewrite (decide_True (P := r = r ∧ _)) by done.
  rewrite (tally_ext (objects s) (write_priority (objects s) r z)).
  2:{ intros r' Hr'. rewrite prio_write. rewrite decide_False; [done|].
      intros [-> _]. done. }
  repeat case_decide; subst; lia.
Qed.

Lemma run_histogram_exact c s :
  well_formed s → histogram_exact s → avoids_defects c s →
  histogram_exact (run c s).
Proof.
  intros Hwf H Hc. destruct c as [e p| | | | |p|r|r v|r|v| |f|]; simpl; try done.
  - destruct p as [| | |z| | | |]; try done. by apply add_histogram_exact.
  - by apply next_histogram_exact.
  - by rewrite at_state.
  - by rewrite positionOf_state.
  - destruct v as [| | |z| | | |]; try done. simpl in Hc.
    destruct (decide (r ∈ references s)) as [Hr|Hr].
    + apply changePriority_histogram_exact; auto.
    + by rewrite changePriority_not_member.
  - by apply removeByRef_histogram_exact.
  - destruct (removeByPosition_cases v s)
      as [[e ->]|[->|(p & item & b & s' & -> & Hitem & Hrm & ->)]]; try done.
    simpl. pose proof (removeByRef_histogram_exact item s H) as H'.
    by rewrite Hrm in H'.
  - by rewrite forEach_state.
Qed.

Lemma run_all_histogram_exact cs s :
  reachable s → histogram_exact s → sound_history cs s →
  histogram_exact (run_all cs s).
Proof.
  revert s. induction cs as [|c cs IH]; intros s Hs H Hcs; [done|].
  destruct Hcs as [Hc Hcs]. rewrite run_all_cons.
  apply IH; [by apply reachable_run| |done].
  apply run_histogram_exact; [by apply reachable_well_formed|done..].
Qed.

(** X18: after a history that never calls [next] on a queue of one entry
    and never calls [changePriority] on a reference that [removeByRef] or
    [removeByPosition] has taken out, [stats] is the histogram of the stored
    priorities: for each priority it holds the number of stored entries of
    that priority, and it has no key for a priority without entries. *)
Theorem histogram_exact_in_sound_histories cs p :
  sound_history cs new_queue →
  let s := run_all cs new_queue in
  stats s !! p =
    if decide (tally (objects s) (heapArr s) p = 0) then None
    else Some (Count (tally (objects s) (heapArr s) p)).
Proof.
  intros Hcs s.
  apply (run_all_histogram_exact cs new_queue); [by exists []| |done].
  intros q.
  change ((∅ : gmap Z count) !! q =
          if decide (tally [] [] q = 0) then None
          else Some (Count (tally [] [] q))).
  by rewrite lookup_empty.
Qed.

Lemma histogram_exact_in_sound_histories_witness :
  let s := run_all script new_queue in
  stats s !! 2 = Some (Count 1) ∧ stats s !! (-12) = None ∧
  tally (objects s) (heapArr s) 2 = 1.
Proof.
  intros s.
  assert (sound_history script new_queue) as Hs.
  { vm_compute. repeat split; try (intros H; discriminate H).
    all: intros _; repeat constructor. }
  pose proof (histogram_exact_in_sound_histories script 2 Hs) as H2.
  pose proof (histogram_exact_in_sound_histories script (-12) Hs) as H12.
  split_and!; [exact H2|exact H12|vm_compute; reflexivity].
Defined.

(** X19: [increasePriority] followed by [decreasePriority] of the same
    priority leaves the queue as it was, provided the histogram holds no
    count for the priority or a count that is neither 0 nor [NaN]. *)
Theorem increase_then_decrease p s :
  prioritiesObj s !! p ≠ Some NaN → prioritiesObj s !! p ≠ Some (Count 0) →
  decreasePriority p (increasePriority p s).2 = (Normal tt, s).
Proof.
  intros Hnan H0. rewrite increasePriority_eq. simpl.
  rewrite decreasePriority_eq. simpl. f_equal.
  destruct s as [arr cnt m refs del mem]. unfold set_prioritiesObj. simpl in *.
  f_equal. unfold inc_count, dec_count.
  destruct (m !! p) as [[n|]|] eqn:Hp; [|done|].
  - rewrite decide_False by congruence.
    rewrite lookup_insert_eq. rewrite decide_False by (intros ?; apply H0; do 2 f_equal; lia).
    rewrite insert_insert_eq. replace (n + 1 - 1) with n by lia.
    by apply insert_id.
  - rewrite lookup_insert_eq. rewrite decide_True by done.
    by apply delete_insert_id.
Qed.

Lemma increase_then_decrease_witness :
  decreasePriority 2 (increasePriority 2 three_entries).2 = (Normal tt, three_entries) ∧
  decreasePriority 5 (increasePriority 5 three_entries).2 = (Normal tt, three_entries).
Proof.
  split.
  - apply (increase_then_decrease 2 three_entries); vm_compute; intros H; discriminate H.
  - apply (increase_then_decrease 5 three_entries); vm_compute; intros H; discriminate H.
Defined.

(** ** [forEach] and the positions *)




(** ** The empty queue *)

(** X21: on a queue without entries, [front] and [next] return [null],
    [at] returns [null] and [removeByPosition] returns [false] for every
    position from 1 on, and [forEach] makes no call; the queue is unchanged
    by all of them. *)
Theorem empty_queue_answers s :
  heapArr s = [] →
  front s = JNull ∧
  next s = (Normal JNull, s) ∧
  (∀ k, 1 ≤ k → at_ (JNum k) s = (Normal None, s) ∧
                removeByPosition (JNum k) s = (Normal false, s)) ∧
  (∀ f body, callable f = true → forEach f body s = (Normal [], s)).
Proof.
  intros Harr. split_and!.
  - unfold front. by rewrite Harr.
  - by apply next_empty.
  - intros k Hk. destruct s as [arr cnt m refs del mem]. simpl in Harr. subst arr.
    unfold at_, removeByPosition, isNumber. run_monad.
    rewrite !(decide_False (P := k ≤ 0)) by lia.
    by rewrite !(decide_True (P := 0 < k)) by lia.
  - intros f body Hf. destruct s as [arr cnt m refs del mem]. simpl in Harr. subst arr.
    unfold forEach. rewrite Hf. done.
Qed.

Lemma empty_queue_answers_witness :
  front new_queue = JNull ∧
  next new_queue = (Normal JNull, new_queue) ∧
  (∀ k, 1 ≤ k → at_ (JNum k) new_queue = (Normal None, new_queue) ∧
                removeByPosition (JNum k) new_queue = (Normal false, new_queue)) ∧
  (∀ f body, callable f = true →
     forEach f body new_queue = (Normal [], new_queue)).
Proof. apply (empty_queue_answers new_queue). reflexivity. Defined.

(** ** Distinct references *)

Lemma run_all_objects_length cs s :
  (length (objects s) ≤ length (objects (run_all cs s)))%nat.
Proof.
  revert s. induction cs as [|c cs IH]; intros s; [done|].
  rewrite run_all_cons. etrans; [apply (run_objects_length c)|apply IH].
Qed.

(** X22: two calls of [add] on the same queue never return the same
    reference, whatever the elements and priorities (equal ones included)
    and whatever happens between the two calls. *)
Theorem references_are_distinct s e p r s1 cs e' p' r' s2 :
  add e p s = (Normal r, s1) →
  add e' p' (run_all cs s1) = (Normal r', s2) →
  r ≠ r'.
Proof.
  intros Hadd Hadd'.
  destruct p as [| | |z| | | |]; try done.
  destruct p' as [| | |z'| | | |]; try done.
  destruct (add_spec e z s) as (arr & m & Heq & _).
  rewrite Heq in Hadd. injection Hadd as <- <-.
  destruct (add_spec e' z' (run_all cs
    {| heapArr := arr;
       counterDequeuedElements := counterDequeuedElements s + 1;
       prioritiesObj := m;
       references := {[length (objects s)]} ∪ references s;
       deletedElements := deletedElements s;
       objects := objects s ++ [{| element := e; priority := z |}] |}))
    as (arr' & m' & Heq' & _).
  rewrite Heq' in Hadd'. injection Hadd' as <- _.
  match goal with |- _ ≠ length (objects (run_all cs ?st)) =>
    pose proof (run_all_objects_length cs st) as Hlen end.
  simpl in Hlen. rewrite length_app in Hlen. simpl in Hlen. lia.
Qed.

Lemma references_are_distinct_witness :
  let s := run_all (take 5 script) new_queue in
  let s1 := (add (JStr "objEl") (JNum (-12)) s).2 in
  let cs := [Next; RemoveByRef 3%nat; Clear] in
  (add (JStr "objEl") (JNum (-12)) s).1 = Normal 3%nat ∧
  (add (JStr "objEl") (JNum (-12)) (run_all cs s1)).1 = Normal 4%nat ∧
  3%nat ≠ 4%nat.
Proof.
  intros s s1 cs. split_and!; [vm_compute; reflexivity..|].
  apply (references_are_distinct s (JStr "objEl") (JNum (-12)) 3%nat s1 cs
           (JStr "objEl") (JNum (-12)) 4%nat
           (add (JStr "objEl") (JNum (-12)) (run_all cs s1)).2).
  - vm_compute. reflexivity.
  - vm_compute. reflexivity.
Defined.
